(** * timed-writer: a shallow embedding of [timed-writer.c]

    The program parses its command line ([main]), then writes one block to a
    file every [interval] seconds ([line_writer]).  Everything the program
    does to the outside world (printing, opening, locking, writing, sleeping,
    allocating) is recorded as a trace of events; whatever the outside world
    answers (the results of [open], [flock] and of each [write]) is an input
    of the model. *)

From Stdlib Require Import Strings.Ascii Strings.String Strings.Byte.
From Stdlib Require Import ZArith Bool List Lia.
Import ListNotations.

Local Open Scope Z_scope.

(** ** Constants of the source *)

Definition INTERVAL_DEFAULT : Z := 5.
Definition INTERVAL_MIN : Z := 1.
Definition INTERVAL_MAX : Z := 60 * 60.
Definition ITERATION_MAX : Z := 666.
Definition FAILURE_MAX : Z := 100.
Definition FAILURE_DEFAULT : Z := 5.
Definition BS_DEF : Z := 1024.
Definition BS_MAX : Z := 1024 * 1024 * 32.

Definition EXIT_SUCCESS : Z := 0.
Definition EXIT_FAILURE : Z := 1.

(** ** C integer types (LP64: [int] is 32 bits, [long] and [size_t] 64) *)

Module CInt.

Definition INT_MIN : Z := - 2 ^ 31.
Definition INT_MAX : Z := 2 ^ 31 - 1.
Definition LONG_MIN : Z := - 2 ^ 63.
Definition LONG_MAX : Z := 2 ^ 63 - 1.

(** Conversion to [int]: the value modulo 2^32, in the signed range. *)
Definition to_int (z : Z) : Z := (z + 2 ^ 31) mod 2 ^ 32 - 2 ^ 31.

(** Conversion to [size_t]: the value modulo 2^64. *)
Definition to_size_t (z : Z) : Z := z mod 2 ^ 64.

Definition is_int (z : Z) : Prop := INT_MIN <= z <= INT_MAX.

End CInt.
Import CInt.

(** ** C strings in byte buffers *)

Module CString.

Definition NUL : byte := x00.
Definition LF : byte := x0a.
Definition CR : byte := x0d.

(** [strlen]: the number of bytes before the first NUL. *)
Fixpoint strlen (s : list byte) : nat :=
  match s with
  | [] => O
  | b :: s' => if Byte.eqb b NUL then O else S (strlen s')
  end.

(** [strcpy dst src]: the bytes of [src] up to and including its first NUL
    replace the bytes at the start of [dst]; the rest of [dst] is left as it
    was.  (Where [dst] is too short the C call overruns it; the model stops
    at the end of [dst].) *)
Fixpoint strcpy (dst src : list byte) : list byte :=
  match src, dst with
  | b :: src', _ :: dst' =>
      b :: (if Byte.eqb b NUL then dst' else strcpy dst' src')
  | _, _ => dst
  end.

(** [memset]: a buffer of [n] bytes filled with [c]. *)
Definition memset (c : byte) (n : Z) : list byte := repeat c (Z.to_nat n).

Definition digit_byte (d : Z) : byte :=
  match d with
  | 0 => x30 | 1 => x31 | 2 => x32 | 3 => x33 | 4 => x34
  | 5 => x35 | 6 => x36 | 7 => x37 | 8 => x38 | _ => x39
  end.

(** The decimal digits of a non-negative number, most significant first;
    [fuel] bounds the number of digits. *)
Fixpoint udigits (fuel : nat) (n : Z) : list byte :=
  match fuel with
  | O => []
  | S f => (if n <? 10 then [] else udigits f (n / 10)) ++ [digit_byte (n mod 10)]
  end.

(** What [%d] prints for an [int]: at most ten digits, and a sign. *)
Definition fmt_d (n : Z) : list byte :=
  if n <? 0 then x2d :: udigits 10 (- n) else udigits 10 n.

(** [sprintf(str_buf, "%d\n", n)]: the text and its terminating NUL. *)
Definition sprintf_d_nl (n : Z) : list byte := fmt_d n ++ [LF; NUL].

(** The number a string of decimal digits denotes (used to state that
    [fmt_d] is the decimal rendering). *)
Definition digit_value (b : byte) : Z := Z.of_N (Byte.to_N b) - 48.

Definition decimal_value (s : list byte) : Z :=
  fold_left (fun acc b => 10 * acc + digit_value b) s 0.

Definition is_digit (b : byte) : Prop := 0 <= digit_value b <= 9.

End CString.
Import CString.

(** ** The outside world: events and answers *)

Inductive stream := Stdout | Stderr.

(** One constructor per [printf]/[fprintf] of the source, carrying the
    arguments of its format; [usage] is one message. *)
Inductive message :=
| MsgUsage (progname : string)
| MsgInvalidSleep (optarg : string)
| MsgInvalidIterations (optarg : string)
| MsgInvalidFailures (optarg : string)
| MsgInvalidBlockSize (optarg : string)
| MsgGibberish
| MsgOneFilename
| MsgGetoptInvalid (c : ascii)          (* printed by getopt itself *)
| MsgGetoptNoArgument (c : ascii)       (* printed by getopt itself *)
| MsgFilename (filename : string)
| MsgExclusiveLock (on : bool)
| MsgSleep (interval : Z)
| MsgMaxIterations (iterations : Z)
| MsgMaxFails (failmax : Z)
| MsgWriteSize (blocksize : Z)
| MsgOpenFailed (filename : string) (errno : Z)
| MsgLockFailed (filename : string) (errno : Z)
| MsgWriting (iter : Z) (write_actual : Z)
| MsgWriteFailed (errno : Z)
| MsgMaxFailcount
| MsgInterrupted (ws : Z) (write_actual : Z)
| MsgTook.                              (* the three measured durations *)

Inductive event :=
| EvPrint (s : stream) (m : message)
| EvMalloc (size : Z)
| EvMemset (c : byte) (size : Z)
| EvOpen (filename : string)
| EvFlock
| EvWrite (payload : list byte) (count : Z)
| EvSleep (seconds : Z)
| EvClose
| EvFree.

(** What one [write] call answers: its return value and [errno]. *)
Record write_result := { ws : Z; w_errno : Z }.

(** The answers of the system calls during one run. *)
Record env := {
  posixly_correct : bool;          (* getopt stops at the first non-option *)
  open_ret : Z;
  open_errno : Z;
  flock_ret : Z;
  flock_errno : Z;
  write_rets : list write_result   (* one per [write] call, in order *)
}.

(** How a function of the model ends. [Starved] marks a run whose [env] held
    fewer answers than the program made [write] calls. *)
Inductive outcome :=
| Returned (v : Z)
| Exited (status : Z)
| Starved.

(** The status the process ends with. *)
Definition exit_status (o : outcome) : option Z :=
  match o with
  | Returned v => Some v
  | Exited s => Some s
  | Starved => None
  end.

(** ** [line_writer] *)

Record config := {
  filename : string;
  interval : Z;
  excl_lock : Z;
  iterations : Z;
  failmax : Z;
  blocksize : Z
}.

(** The variables the loop changes. *)
Record loop_state := {
  iter : Z;
  failures : Z;
  write_buf : list byte
}.

Definition write_buf_size (c : config) : Z :=
  if blocksize c >? BS_DEF then to_size_t (blocksize c) else to_size_t BS_DEF.

Definition write_actual (c : config) (str_len : Z) : Z :=
  if blocksize c =? 0 then str_len else to_size_t (blocksize c).

Definition initial_state (c : config) : loop_state :=
  {| iter := 0; failures := 0; write_buf := memset CR (write_buf_size c) |}.

(** Lines 131-143: the accounting of one [write] result.  Gives the messages,
    the new value of [failures], and whether [exit] was called. *)
Definition account (c : config) (fails : Z) (r : write_result)
  : list event * Z * bool :=
  if ws r =? -1 then
    let ev := [EvPrint Stderr (MsgWriteFailed (w_errno r))] in
    if failmax c >? 0 then
      let fails' := to_int (fails + 1) in
      if fails' =? failmax c
      then (ev ++ [EvPrint Stderr MsgMaxFailcount], fails', true)
      else (ev, fails', false)
    else (ev, fails, false)
  else ([], 0, false).

(** Lines 120-158: one pass through the loop body, given the answer [r] of
    its [write] call.  The clock readings around the [write] and the three
    durations computed from them are left out; the line that prints them is
    the event [MsgTook]. *)
Definition loop_body (c : config) (st : loop_state) (r : write_result)
  : list event * (loop_state + outcome) :=
  let str_buf := sprintf_d_nl (iter st) in
  let buf := strcpy (write_buf st) str_buf in
  let str_len := Z.of_nat (strlen str_buf) in
  let wa := write_actual c str_len in
  let ev1 := [EvPrint Stdout (MsgWriting (iter st) wa);
              EvWrite (firstn (Z.to_nat wa) buf) wa] in
  let '(ev2, fails', exited) := account c (failures st) r in
  if exited then (ev1 ++ ev2, inr (Exited EXIT_FAILURE))
  else
    let ev3 := if negb (ws r =? -1) && negb (ws r =? wa)
               then [EvPrint Stdout (MsgInterrupted (ws r) wa)] else [] in
    let iter' := to_int (iter st + 1) in
    let ev4 := if iter' <? iterations c then [EvSleep (interval c)] else [] in
    (ev1 ++ ev2 ++ ev3 ++ [EvPrint Stdout MsgTook] ++ ev4,
     inl {| iter := iter'; failures := fails'; write_buf := buf |}).

(** How the [for] loop ends. *)
Inductive loop_end :=
| LoopDone (st : loop_state)
| LoopExit (o : outcome)
| LoopStarved.

(** Line 119: the loop; each pass takes the next answer of [write]. *)
Fixpoint loop (c : config) (st : loop_state) (rs : list write_result)
  : list event * loop_end :=
  if iter st <? iterations c then
    match rs with
    | [] => ([], LoopStarved)
    | r :: rs' =>
        match loop_body c st r with
        | (ev, inl st') => let (ev', e) := loop c st' rs' in (ev ++ ev', e)
        | (ev, inr o) => (ev, LoopExit o)
        end
    end
  else ([], LoopDone st).

Definition banner (c : config) : list event :=
  [EvPrint Stdout (MsgFilename (filename c));
   EvPrint Stdout (MsgExclusiveLock (negb (excl_lock c =? 0)));
   EvPrint Stdout (MsgSleep (interval c));
   EvPrint Stdout (MsgMaxIterations (iterations c));
   EvPrint Stdout (MsgMaxFails (failmax c));
   EvPrint Stdout (MsgWriteSize (blocksize c))].

(** Lines 87-98: what happens before the file is opened. *)
Definition prologue (c : config) : list event :=
  banner c ++ [EvMalloc (write_buf_size c); EvMemset CR (write_buf_size c)].

(** Lines 64-165, for the runs in which [malloc] returns a buffer; the run
    in which it returns a null pointer is in [line_writer_alloc] below. *)
Definition line_writer (c : config) (e : env) : list event * outcome :=
  let ev0 := prologue c ++ [EvOpen (filename c)] in
  if open_ret e =? -1 then
    (ev0 ++ [EvPrint Stderr (MsgOpenFailed (filename c) (open_errno e))],
     Returned 1)
  else if negb (excl_lock c =? 0) && (flock_ret e =? -1) then
    (ev0 ++ [EvFlock;
             EvPrint Stderr (MsgLockFailed (filename c) (flock_errno e))],
     Returned 1)
  else
    let ev1 := if negb (excl_lock c =? 0) then [EvFlock] else [] in
    match loop c (initial_state c) (write_rets e) with
    | (ev, LoopDone _) => (ev0 ++ ev1 ++ ev ++ [EvClose; EvFree], Returned 0)
    | (ev, LoopExit o) => (ev0 ++ ev1 ++ ev, o)
    | (ev, LoopStarved) => (ev0 ++ ev1 ++ ev, Starved)
    end.

(** ** [atol] and [getopt], as the C library provides them *)

Module Libc.

Local Open Scope char_scope.

Definition isspace (c : ascii) : bool :=
  let n := N_of_ascii c in (n =? 32)%N || ((9 <=? n)%N && (n <=? 13)%N).

Definition digit_of (c : ascii) : option Z :=
  let n := Z.of_N (N_of_ascii c) in
  if ((48 <=? n) && (n <=? 57))%Z then Some (n - 48)%Z else None.

Fixpoint skip_space (s : string) : string :=
  match s with
  | String c s' => if isspace c then skip_space s' else s
  | EmptyString => s
  end.

(** The value of the longest prefix of decimal digits. *)
Fixpoint read_digits (acc : Z) (s : string) : Z :=
  match s with
  | String c s' =>
      match digit_of c with
      | Some d => read_digits (10 * acc + d)%Z s'
      | None => acc
      end
  | EmptyString => acc
  end.

Definition clamp_long (z : Z) : Z := Z.max LONG_MIN (Z.min LONG_MAX z).

(** [atol(s)] is [strtol(s, NULL, 10)]: white space, an optional sign, then
    digits up to the first other character; zero when there is no digit; a
    value that does not fit a [long] is clamped. *)
Definition atol (s : string) : Z :=
  match skip_space s with
  | String c s' =>
      if Ascii.eqb c "-" then clamp_long (- read_digits 0%Z s')
      else if Ascii.eqb c "+" then clamp_long (read_digits 0%Z s')
      else clamp_long (read_digits 0%Z (String c s'))
  | EmptyString => 0%Z
  end.

(** What one call of [getopt] gives back to the [switch]: an option
    character (with [optarg] where the option takes an argument), or ['?']
    after getopt has printed its own complaint. *)
Inductive getopt_ret :=
| OptArg (c : ascii) (optarg : string)
| OptFlag (c : ascii)
| OptErr (complaint : message).

(** Looks [c] up in the option string; [Some true] when a colon follows. *)
Fixpoint optstring_find (optstring : string) (c : ascii) : option bool :=
  match optstring with
  | EmptyString => None
  | String x rest =>
      if Ascii.eqb x c
      then Some (match rest with String ":" _ => true | _ => false end)
      else optstring_find rest c
  end.

Definition lookup_opt (optstring : string) (c : ascii) : option bool :=
  if Ascii.eqb c ":" || Ascii.eqb c ";" then None
  else optstring_find optstring c.

(** The option characters packed in one argv element [-abc]; [next] is the
    argv element after it, taken as [optarg] by a last character that needs
    one.  The boolean tells whether [next] was taken. *)
Fixpoint scan_cluster (optstring : string) (cs : string) (next : option string)
  : list getopt_ret * bool :=
  match cs with
  | EmptyString => ([], false)
  | String c cs' =>
      match lookup_opt optstring c with
      | None =>
          let (rets, took) := scan_cluster optstring cs' next in
          (OptErr (MsgGetoptInvalid c) :: rets, took)
      | Some false =>
          let (rets, took) := scan_cluster optstring cs' next in
          (OptFlag c :: rets, took)
      | Some true =>
          match cs' with
          | String _ _ => ([OptArg c cs'], false)
          | EmptyString =>
              match next with
              | Some a => ([OptArg c a], true)
              | None => ([OptErr (MsgGetoptNoArgument c)], false)
              end
          end
      end
  end.

(** All the values [getopt] returns before -1 on the arguments [args]
    (argv without argv[0]), and the non-option arguments left from [optind]
    on.  An element is an option element when it starts with [-] and is
    neither [-] nor [--]; [--] ends the options.  By default the other
    elements are skipped and moved behind the options; with [posix] the
    first of them ends the options. *)
Fixpoint getopt_all (posix : bool) (optstring : string) (args : list string)
  : list getopt_ret * list string :=
  match args with
  | [] => ([], [])
  | a :: rest =>
      match a with
      | String "-" (String c cs as cluster) =>
          if Ascii.eqb c "-" && String.eqb cs EmptyString then ([], rest)
          else
            match rest with
            | [] => (fst (scan_cluster optstring cluster None), [])
            | b :: rest' =>
                let (rets, took) := scan_cluster optstring cluster (Some b) in
                let (rets', pos) :=
                  if took then getopt_all posix optstring rest'
                  else getopt_all posix optstring rest in
                (rets ++ rets', pos)
            end
      | _ =>
          if posix then ([], args)
          else let (rets, pos) := getopt_all posix optstring rest in
               (rets, a :: pos)
      end
  end.

End Libc.
Import Libc.

(** ** [main] *)

(** The local variables of [main] the options set. *)
Record options := {
  o_interval : Z;      (* long *)
  o_iterations : Z;    (* long *)
  o_failmax : Z;       (* long *)
  o_excl_lock : Z;     (* int *)
  o_blocksize : Z      (* int *)
}.

Definition default_options : options :=
  {| o_interval := INTERVAL_DEFAULT;
     o_iterations := ITERATION_MAX;
     o_failmax := FAILURE_DEFAULT;
     o_excl_lock := 0;
     o_blocksize := 0 |}.

Definition fatal (m : message) : list event * Z :=
  ([EvPrint Stderr m], EXIT_FAILURE).

(** Lines 178-223: the [switch] on one value of [getopt]; either the updated
    variables, or what is printed before [exit] and the status given it. *)
Definition handle_opt (progname : string) (o : options) (g : getopt_ret)
  : options + (list event * Z) :=
  match g with
  | OptFlag c =>
      if Ascii.eqb c "h"%char then inr ([EvPrint Stdout (MsgUsage progname)], EXIT_SUCCESS)
      else if Ascii.eqb c "l"%char then
        inl {| o_interval := o_interval o; o_iterations := o_iterations o;
               o_failmax := o_failmax o; o_excl_lock := 1;
               o_blocksize := o_blocksize o |}
      else inr (fatal MsgGibberish)
  | OptArg c optarg =>
      if Ascii.eqb c "s"%char then
        let v := atol optarg in
        if (v =? 0) || (v >? INTERVAL_MAX) || (v <? INTERVAL_MIN)
        then inr (fatal (MsgInvalidSleep optarg))
        else inl {| o_interval := v; o_iterations := o_iterations o;
                    o_failmax := o_failmax o; o_excl_lock := o_excl_lock o;
                    o_blocksize := o_blocksize o |}
      else if Ascii.eqb c "c"%char then
        let v := atol optarg in
        if (v <=? 0) || (v >? ITERATION_MAX)
        then inr (fatal (MsgInvalidIterations optarg))
        else inl {| o_interval := o_interval o; o_iterations := v;
                    o_failmax := o_failmax o; o_excl_lock := o_excl_lock o;
                    o_blocksize := o_blocksize o |}
      else if Ascii.eqb c "f"%char then
        let v := atol optarg in
        if (v <? 0) || (v >? FAILURE_MAX)
        then inr (fatal (MsgInvalidFailures optarg))
        else inl {| o_interval := o_interval o; o_iterations := o_iterations o;
                    o_failmax := v; o_excl_lock := o_excl_lock o;
                    o_blocksize := o_blocksize o |}
      else if Ascii.eqb c "b"%char then
        let v := to_int (atol optarg) in       (* [blocksize] is an [int] *)
        if (v <? 0) || (v >? BS_MAX)
        then inr (fatal (MsgInvalidBlockSize optarg))
        else inl {| o_interval := o_interval o; o_iterations := o_iterations o;
                    o_failmax := o_failmax o; o_excl_lock := o_excl_lock o;
                    o_blocksize := v |}
      else inr (fatal MsgGibberish)
  | OptErr complaint =>
      inr ([EvPrint Stderr complaint; EvPrint Stderr MsgGibberish], EXIT_FAILURE)
  end.

(** Line 177: the [while] loop over the values of [getopt]. *)
Fixpoint options_loop (progname : string) (o : options) (gs : list getopt_ret)
  : options + (list event * Z) :=
  match gs with
  | [] => inl o
  | g :: gs' =>
      match handle_opt progname o g with
      | inl o' => options_loop progname o' gs'
      | inr stop => inr stop
      end
  end.

Definition optstring : string := "s:c:b:f:lh"%string.

Definition config_of (o : options) (file : string) : config :=
  {| filename := file;
     interval := to_int (o_interval o);
     excl_lock := o_excl_lock o;
     iterations := to_int (o_iterations o);
     failmax := to_int (o_failmax o);
     blocksize := to_int (o_blocksize o) |}.

(** [main]: [argv] is the whole argument vector, program name first. *)
Definition main (argv : list string) (e : env) : list event * outcome :=
  let progname := hd EmptyString argv in
  let argc := Z.of_nat (List.length argv) in
  let (rets, positional) := getopt_all (posixly_correct e) optstring (tl argv) in
  match options_loop progname default_options rets with
  | inr (ev, status) => (ev, Exited status)
  | inl o =>
      let optind := argc - Z.of_nat (List.length positional) in
      if negb (optind + 1 =? argc) then
        ([EvPrint Stderr MsgOneFilename], Exited EXIT_FAILURE)
      else
        match line_writer (config_of o (hd EmptyString positional)) e with
        | (ev, Returned _) => (ev, Returned 0)    (* the value is dropped *)
        | (ev, o') => (ev, o')
        end
  end.

(** ** The run in which [malloc] returns a null pointer *)

(** Lines 96-97 hand what [malloc] returns to [memset] without a test.  The
    functions above are the runs in which [malloc] returns a buffer; the two
    below take the answer of [malloc] as one more input.  With a null
    pointer the process is killed by the signal [memset] raises when it
    writes through it, after the banner and before [open]. *)
Inductive process_end :=
| Ended (o : outcome)
| Killed.


Definition line_writer_alloc (malloc_ok : bool) (c : config) (e : env)
  : list event * process_end :=
  if malloc_ok then
    let (ev, o) := line_writer c e in (ev, Ended o)
  else (banner c ++ [EvMalloc (write_buf_size c)], Killed).


(** ** Vocabulary for the properties *)

(** The [write] calls of a trace: payload and requested byte count. *)
Fixpoint writes_of (tr : list event) : list (list byte * Z) :=
  match tr with
  | [] => []
  | EvWrite p n :: tr' => (p, n) :: writes_of tr'
  | _ :: tr' => writes_of tr'
  end.

(** The [write] and [sleep] calls of a trace, in order. *)
Inductive io_kind := KWrite | KSleep (seconds : Z).

Fixpoint io_kinds (tr : list event) : list io_kind :=
  match tr with
  | [] => []
  | EvWrite _ _ :: tr' => KWrite :: io_kinds tr'
  | EvSleep s :: tr' => KSleep s :: io_kinds tr'
  | _ :: tr' => io_kinds tr'
  end.

(** [n] writes with a sleep of [s] seconds between each two of them, and
    none after the last. *)
Fixpoint write_sleep_pattern (n : nat) (s : Z) : list io_kind :=
  match n with
  | O => []
  | S n' =>
      KWrite :: match n' with
                | O => []
                | S _ => KSleep s :: write_sleep_pattern n' s
                end
  end.

(** The allocations and fills of the buffer in a trace. *)
Definition is_alloc (ev : event) : bool :=
  match ev with
  | EvMalloc _ | EvMemset _ _ => true
  | _ => false
  end.

Definition is_stderr (ev : event) : bool :=
  match ev with
  | EvPrint Stderr _ => true
  | _ => false
  end.

Definition is_open (ev : event) : bool :=
  match ev with
  | EvOpen _ => true
  | _ => false
  end.

(** The file was opened, and locked where a lock was asked for. *)
Definition acquired (c : config) (e : env) : Prop :=
  open_ret e <> -1 /\ (excl_lock c = 0 \/ flock_ret e <> -1).

(** A [write] that failed. *)
Definition failed (r : write_result) : Prop := ws r = -1.

(** Answers in which every streak of failed writes is shorter than [n] and
    ends with a write that did not fail. *)
Inductive recovers (n : Z) : list write_result -> Prop :=
| recovers_nil : recovers n []
| recovers_streak (fs : list write_result) (r : write_result)
    (rest : list write_result) :
    Forall failed fs -> Z.of_nat (length fs) < n -> ~ failed r ->
    recovers n rest -> recovers n (fs ++ r :: rest).

(** The loop states a run can be in when it tests [iter < iterations]. *)
Inductive reachable (c : config) : loop_state -> Prop :=
| reach_init : reachable c (initial_state c)
| reach_step (st st' : loop_state) (r : write_result) (ev : list event) :
    reachable c st -> iter st < iterations c ->
    loop_body c st r = (ev, inl st') -> reachable c st'.

(** The buffer as the pass for iteration [i] leaves it: the text, its NUL,
    and carriage returns up to the size of the buffer. *)
Definition buffer_after (c : config) (i : Z) : list byte :=
  sprintf_d_nl i ++
  repeat CR (Z.to_nat (write_buf_size c) - length (sprintf_d_nl i)).

(** The arguments of [line_writer] are C [int]s. *)
Definition int_config (c : config) : Prop :=
  is_int (interval c) /\ is_int (iterations c) /\
  is_int (failmax c) /\ is_int (blocksize c).

(** What holds each time the loop tests its condition: the index is not
    negative, and the buffer is carriage returns except for a start no longer
    than the text about to be copied in. *)
Definition loop_inv (c : config) (st : loop_state) : Prop :=
  0 <= iter st /\
  exists junk k,
    write_buf st = junk ++ repeat CR k /\
    (length junk + k)%nat = Z.to_nat (write_buf_size c) /\
    (length junk <= length (sprintf_d_nl (iter st)))%nat.

(** The byte count the pass for iteration [i] asks [write] for, once
    [strlen] is worked out, and the bytes it hands over. *)
Definition requested (c : config) (i : Z) : Z :=
  write_actual c (Z.of_nat (length (fmt_d i) + 1)).

Definition payload (c : config) (i : Z) : list byte :=
  firstn (Z.to_nat (requested c i)) (buffer_after c i).

(** ** Vocabulary for the command line *)

(** The value [atol] gives for the argument of a numeric option is outside
    the bounds of the option ([-b] only for values an [int] can hold). *)
Definition out_of_bounds (c : ascii) (optarg : string) : Prop :=
  let v := atol optarg in
  (c = "s"%char /\ ~ (INTERVAL_MIN <= v <= INTERVAL_MAX)) \/
  (c = "c"%char /\ ~ (0 < v <= ITERATION_MAX)) \/
  (c = "f"%char /\ ~ (0 <= v <= FAILURE_MAX)) \/
  (c = "b"%char /\ is_int v /\ ~ (0 <= v <= BS_MAX)).

(** [atol] finds no number in the string: after the white space and an
    optional sign comes no digit. *)
Definition no_leading_number (s : string) : Prop :=
  match skip_space s with
  | EmptyString => True
  | String c s' =>
      if Ascii.eqb c "-" || Ascii.eqb c "+" then
        match s' with
        | String d _ => digit_of d = None
        | EmptyString => True
        end
      else digit_of c = None
  end.

(** The complaint of the [switch] about the argument of option [c]. *)
Definition invalid_message (c : ascii) (optarg : string) : message :=
  if Ascii.eqb c "s" then MsgInvalidSleep optarg
  else if Ascii.eqb c "c" then MsgInvalidIterations optarg
  else if Ascii.eqb c "f" then MsgInvalidFailures optarg
  else MsgInvalidBlockSize optarg.

(** The variables of [main] hold values within the documented bounds. *)
Definition options_in_bounds (o : options) : Prop :=
  INTERVAL_MIN <= o_interval o <= INTERVAL_MAX /\
  0 < o_iterations o <= ITERATION_MAX /\
  0 <= o_failmax o <= FAILURE_MAX /\
  0 <= o_blocksize o <= BS_MAX.

(** An environment in which [open] fails. *)
Definition no_open_env : env :=
  {| posixly_correct := false; open_ret := -1; open_errno := 2;
     flock_ret := 0; flock_errno := 0; write_rets := [] |}.

(** ** Sample runs *)

Definition ok_write : write_result := {| ws := 2; w_errno := 0 |}.
Definition bad_write : write_result := {| ws := -1; w_errno := 5 |}.

Definition sample_config (its fmax bs : Z) : config :=
  {| filename := "out.txt"%string; interval := 5; excl_lock := 0;
     iterations := its; failmax := fmax; blocksize := bs |}.

Definition sample_env (rs : list write_result) : env :=
  {| posixly_correct := false; open_ret := 3; open_errno := 0;
     flock_ret := 0; flock_errno := 0; write_rets := rs |}.

(** ** Vocabulary for the further properties *)

(** The events the loop itself can give rise to. *)
Definition in_loop (ev : event) : bool :=
  match ev with
  | EvPrint _ _ | EvWrite _ _ | EvSleep _ => true
  | _ => false
  end.

Definition is_flock (ev : event) : bool :=
  match ev with
  | EvFlock => true
  | _ => false
  end.

Definition is_cleanup (ev : event) : bool :=
  match ev with
  | EvClose | EvFree => true
  | _ => false
  end.

(** The argument of the last occurrence of option [c] among the values
    [getopt] returned. *)
Fixpoint last_optarg (c : ascii) (gs : list getopt_ret) : option string :=
  match gs with
  | [] => None
  | g :: gs' =>
      match last_optarg c gs' with
      | Some v => Some v
      | None =>
          match g with
          | OptArg c' v => if Ascii.eqb c' c then Some v else None
          | _ => None
          end
      end
  end.

(** Whether the flag [c] occurs among the values [getopt] returned. *)
Fixpoint has_flag (c : ascii) (gs : list getopt_ret) : bool :=
  match gs with
  | [] => false
  | OptFlag c' :: gs' => Ascii.eqb c' c || has_flag c gs'
  | _ :: gs' => has_flag c gs'
  end.

(** The value a numeric variable of [main] ends with: what [conv] makes of
    the last argument given for it, or the value it had. *)
Definition setting (conv : string -> Z) (before : Z) (last : option string) : Z :=
  match last with
  | Some v => conv v
  | None => before
  end.

(** The [errno] values of the "write() failed" complaints of a trace. *)
Fixpoint write_errors (tr : list event) : list Z :=
  match tr with
  | [] => []
  | EvPrint Stderr (MsgWriteFailed n) :: tr' => n :: write_errors tr'
  | _ :: tr' => write_errors tr'
  end.

(** The [errno] values of the failed ones among some answers of [write]. *)
Fixpoint failed_errnos (rs : list write_result) : list Z :=
  match rs with
  | [] => []
  | r :: rs' => if ws r =? -1 then w_errno r :: failed_errnos rs'
                else failed_errnos rs'
  end.

(** * Properties *)

Ltac split_ands := repeat match goal with |- _ /\ _ => split end.

(** ** Integer conversions *)

Module CIntFacts.

Lemma to_int_id (z : Z) : is_int z -> to_int z = z.
Proof.
  unfold is_int, INT_MIN, INT_MAX, to_int. intros H.
  rewrite Z.mod_small; lia.
Qed.

Lemma to_int_range (z : Z) : is_int (to_int z).
Proof.
  unfold is_int, INT_MIN, INT_MAX, to_int.
  pose proof (Z.mod_pos_bound (z + 2 ^ 31) (2 ^ 32) ltac:(lia)). lia.
Qed.

Lemma to_size_t_id (z : Z) : 0 <= z -> is_int z -> to_size_t z = z.
Proof.
  unfold is_int, INT_MAX, to_size_t. intros H0 H.
  apply Z.mod_small. lia.
Qed.

End CIntFacts.
Import CIntFacts.

(** ** Decimal rendering, [strlen] and [strcpy] *)

Module CStringFacts.

Lemma digit_value_digit_byte (d : Z) :
  0 <= d <= 9 -> digit_value (digit_byte d) = d.
Proof.
  intros H.
  assert (E : d = 0 \/ d = 1 \/ d = 2 \/ d = 3 \/ d = 4 \/
              d = 5 \/ d = 6 \/ d = 7 \/ d = 8 \/ d = 9) by lia.
  repeat (destruct E as [E | E]; [subst d; reflexivity |]).
  subst d; reflexivity.
Qed.

Lemma is_digit_not_nul (b : byte) : is_digit b -> b <> NUL.
Proof.
  unfold is_digit. intros H E. subst b. vm_compute in H. destruct H as [H _].
  apply H. reflexivity.
Qed.

Lemma udigits_digits (f : nat) (n : Z) : Forall is_digit (udigits f n).
Proof.
  revert n. induction f as [| f IH]; intros n; simpl.
  - constructor.
  - apply Forall_app. split.
    + destruct (n <? 10); [constructor | apply IH].
    + constructor; [| constructor].
      unfold is_digit. rewrite digit_value_digit_byte;
        pose proof (Z.mod_pos_bound n 10 ltac:(lia)); lia.
Qed.

Lemma udigits_length_le (f : nat) (n : Z) : (length (udigits f n) <= f)%nat.
Proof.
  revert n. induction f as [| f IH]; intros n; simpl.
  - lia.
  - rewrite length_app. simpl. destruct (n <? 10); simpl.
    + lia.
    + specialize (IH (n / 10)). lia.
Qed.

Lemma udigits_length_mono (f : nat) (n m : Z) :
  n <= m -> (length (udigits f n) <= length (udigits f m))%nat.
Proof.
  revert n m. induction f as [| f IH]; intros n m H; simpl.
  - lia.
  - rewrite !length_app. simpl.
    destruct (Z.ltb_spec n 10), (Z.ltb_spec m 10); simpl; try lia.
    assert (n / 10 <= m / 10) by (apply Z.div_le_mono; lia).
    specialize (IH _ _ H2). lia.
Qed.

Lemma decimal_value_snoc (s : list byte) (b : byte) :
  decimal_value (s ++ [b]) = 10 * decimal_value s + digit_value b.
Proof. unfold decimal_value. rewrite fold_left_app. reflexivity. Qed.

Lemma udigits_value (f : nat) (n : Z) :
  0 <= n < 10 ^ Z.of_nat f -> decimal_value (udigits f n) = n.
Proof.
  revert n. induction f as [| f IH]; intros n H.
  - simpl in H. unfold decimal_value. simpl. lia.
  - simpl udigits. rewrite decimal_value_snoc.
    pose proof (Z.mod_pos_bound n 10 ltac:(lia)).
    rewrite digit_value_digit_byte by lia.
    destruct (Z.ltb_spec n 10).
    + rewrite Z.mod_small by lia. reflexivity.
    + rewrite IH.
      * pose proof (Z.div_mod n 10 ltac:(lia)). lia.
      * rewrite Nat2Z.inj_succ, Z.pow_succ_r in H by lia.
        split; [apply Z.div_pos; lia | apply Z.div_lt_upper_bound; lia].
Qed.

(** The rendering of a positive number has no leading zero. *)
Lemma udigits_head (f : nat) (n : Z) :
  0 < n < 10 ^ Z.of_nat f ->
  exists b rest, udigits f n = b :: rest /\ digit_value b <> 0.
Proof.
  revert n. induction f as [| f IH]; intros n H.
  - simpl in H. lia.
  - simpl udigits. pose proof (Z.mod_pos_bound n 10 ltac:(lia)).
    destruct (Z.ltb_spec n 10).
    + exists (digit_byte (n mod 10)), []. split; [reflexivity |].
      rewrite digit_value_digit_byte, Z.mod_small by lia. lia.
    + destruct (IH (n / 10)) as (b & rest & E & Hb).
      * rewrite Nat2Z.inj_succ, Z.pow_succ_r in H by lia.
        split; [apply Z.div_str_pos; lia | apply Z.div_lt_upper_bound; lia].
      * rewrite E. exists b, (rest ++ [digit_byte (n mod 10)]).
        split; [reflexivity | exact Hb].
Qed.

Lemma eqb_nul_false (b : byte) : b <> NUL -> Byte.eqb b NUL = false.
Proof.
  intros H. destruct (Byte.eqb b NUL) eqn:E; [| reflexivity].
  apply Byte.byte_dec_bl in E. contradiction.
Qed.

Lemma strlen_app_nul (t rest : list byte) :
  Forall (fun b => b <> NUL) t -> strlen (t ++ NUL :: rest) = length t.
Proof.
  induction 1 as [| b t Hb _ IH]; simpl.
  - reflexivity.
  - rewrite eqb_nul_false, IH by assumption. reflexivity.
Qed.

Lemma strcpy_app_nul (t rest dst : list byte) :
  Forall (fun b => b <> NUL) t -> (length t < length dst)%nat ->
  strcpy dst (t ++ NUL :: rest) = t ++ NUL :: skipn (S (length t)) dst.
Proof.
  intros Ht. revert dst. induction Ht as [| b t Hb _ IH]; intros dst Hlen.
  - destruct dst as [| d dst]; simpl in *; [lia | reflexivity].
  - destruct dst as [| d dst]; simpl in Hlen; [lia |].
    simpl. rewrite eqb_nul_false by assumption.
    rewrite IH by lia. reflexivity.
Qed.

End CStringFacts.
Import CStringFacts.

(** ** The loop body under its invariant *)

Module LoopFacts.

Lemma skipn_repeat {A : Type} (x : A) (n k : nat) :
  skipn n (repeat x k) = repeat x (k - n).
Proof.
  revert n. induction k as [| k IH]; intros [| n]; simpl; auto.
Qed.

Lemma write_buf_size_ge (c : config) :
  is_int (blocksize c) -> BS_DEF <= write_buf_size c.
Proof.
  unfold write_buf_size, BS_DEF, is_int, INT_MIN, INT_MAX, to_size_t.
  intros H. destruct (Z.gtb_spec (blocksize c) 1024).
  - rewrite Z.mod_small; lia.
  - rewrite Z.mod_small; lia.
Qed.

Lemma write_buf_size_max (c : config) :
  is_int (blocksize c) -> write_buf_size c = Z.max (blocksize c) BS_DEF.
Proof.
  unfold write_buf_size, BS_DEF, is_int, INT_MIN, INT_MAX, to_size_t.
  intros H. destruct (Z.gtb_spec (blocksize c) 1024).
  - rewrite Z.mod_small; lia.
  - rewrite Z.mod_small; lia.
Qed.

Lemma fmt_d_nonneg (n : Z) : 0 <= n -> fmt_d n = udigits 10 n.
Proof.
  intros H. unfold fmt_d. destruct (Z.ltb_spec n 0); [lia | reflexivity].
Qed.

Lemma fmt_d_length (n : Z) : 0 <= n -> (length (fmt_d n) <= 10)%nat.
Proof. intros H. rewrite fmt_d_nonneg by assumption. apply udigits_length_le. Qed.

Lemma fmt_d_no_nul (n : Z) :
  0 <= n -> Forall (fun b => b <> NUL) (fmt_d n ++ [LF]).
Proof.
  intros H. rewrite fmt_d_nonneg by assumption. apply Forall_app. split.
  - eapply Forall_impl; [| apply udigits_digits]. apply is_digit_not_nul.
  - constructor; [discriminate | constructor].
Qed.

Lemma sprintf_d_nl_split (n : Z) :
  sprintf_d_nl n = (fmt_d n ++ [LF]) ++ NUL :: [].
Proof. unfold sprintf_d_nl. rewrite <- app_assoc. reflexivity. Qed.

Lemma sprintf_d_nl_length (n : Z) :
  length (sprintf_d_nl n) = (length (fmt_d n) + 2)%nat.
Proof. unfold sprintf_d_nl. rewrite length_app. reflexivity. Qed.

Lemma sprintf_d_nl_mono (n : Z) :
  0 <= n ->
  (length (sprintf_d_nl n) <= length (sprintf_d_nl (n + 1)))%nat.
Proof.
  intros H. rewrite !sprintf_d_nl_length, !fmt_d_nonneg by lia.
  pose proof (udigits_length_mono 10 n (n + 1) ltac:(lia)). lia.
Qed.

Lemma strlen_sprintf (n : Z) :
  0 <= n -> strlen (sprintf_d_nl n) = (length (fmt_d n) + 1)%nat.
Proof.
  intros H. rewrite sprintf_d_nl_split, strlen_app_nul by (apply fmt_d_no_nul; lia).
  rewrite length_app. reflexivity.
Qed.

(** Copying the text for [iter st] into a buffer that satisfies the
    invariant gives [buffer_after]. *)
Lemma strcpy_buffer (c : config) (st : loop_state) :
  is_int (blocksize c) -> loop_inv c st ->
  strcpy (write_buf st) (sprintf_d_nl (iter st)) = buffer_after c (iter st).
Proof.
  intros Hb [Hi (junk & k & Hbuf & Hsize & Hjunk)].
  pose proof (write_buf_size_ge c Hb) as Hge. unfold BS_DEF in Hge.
  pose proof (fmt_d_length (iter st) Hi) as Hlen.
  rewrite sprintf_d_nl_length in Hjunk.
  unfold buffer_after. rewrite sprintf_d_nl_length.
  rewrite Hbuf, sprintf_d_nl_split.
  rewrite strcpy_app_nul.
  - rewrite <- (app_assoc _ [NUL]).
    change ([NUL] ++ ?x) with (NUL :: x). do 2 f_equal.
    assert (L : length (fmt_d (iter st) ++ [LF]) = (length (fmt_d (iter st)) + 1)%nat)
      by (rewrite length_app; reflexivity).
    rewrite L, skipn_app, skipn_all2, skipn_repeat by lia.
    rewrite app_nil_l. f_equal. lia.
  - apply fmt_d_no_nul. assumption.
  - rewrite !length_app, repeat_length. simpl. lia.
Qed.

Lemma buffer_after_length (c : config) (i : Z) :
  is_int (blocksize c) -> 0 <= i ->
  length (buffer_after c i) = Z.to_nat (write_buf_size c).
Proof.
  intros Hb Hi. unfold buffer_after.
  pose proof (write_buf_size_ge c Hb) as Hge. unfold BS_DEF in Hge.
  pose proof (fmt_d_length i Hi) as Hlen.
  rewrite length_app, repeat_length, sprintf_d_nl_length. lia.
Qed.

Lemma initial_inv (c : config) : loop_inv c (initial_state c).
Proof.
  split; [simpl; lia |].
  exists [], (Z.to_nat (write_buf_size c)). simpl. repeat split. lia.
Qed.

Section Body.
Variable c : config.
Hypothesis Hc : int_config c.
Variable st : loop_state.
Hypothesis Hinv : loop_inv c st.
Hypothesis Hlt : iter st < iterations c.

(** The loop body, with the string and integer operations worked out. *)
Lemma loop_body_eq (r : write_result) :
  loop_body c st r =
  let ev1 := [EvPrint Stdout (MsgWriting (iter st) (requested c (iter st)));
              EvWrite (payload c (iter st)) (requested c (iter st))] in
  let '(ev2, fails', exited) := account c (failures st) r in
  if exited then (ev1 ++ ev2, inr (Exited EXIT_FAILURE))
  else
    let ev3 := if negb (ws r =? -1) && negb (ws r =? (requested c (iter st)))
               then [EvPrint Stdout (MsgInterrupted (ws r) (requested c (iter st)))]
               else [] in
    let ev4 := if iter st + 1 <? iterations c
               then [EvSleep (interval c)] else [] in
    (ev1 ++ ev2 ++ ev3 ++ [EvPrint Stdout MsgTook] ++ ev4,
     inl {| iter := iter st + 1; failures := fails';
            write_buf := buffer_after c (iter st) |}).
Proof.
  destruct Hc as (_ & Hit & _ & Hb). pose proof Hinv as [Hi _].
  unfold loop_body, payload, requested.
  rewrite (strcpy_buffer c st), strlen_sprintf by assumption.
  rewrite (to_int_id (iter st + 1))
    by (unfold is_int, INT_MIN, INT_MAX in *; lia).
  reflexivity.
Qed.

Lemma loop_body_inv (r : write_result) (ev : list event) (st' : loop_state) :
  loop_body c st r = (ev, inl st') ->
  loop_inv c st' /\ iter st' = iter st + 1 /\
  write_buf st' = buffer_after c (iter st).
Proof.
  rewrite loop_body_eq. cbv zeta.
  destruct (account c (failures st) r) as [[ev2 f'] [|]]; [discriminate |].
  intros E. injection E as _ E. subst st'. simpl.
  destruct Hc as (_ & _ & _ & Hb). pose proof Hinv as [Hi _].
  split; [| split; reflexivity].
  split; [simpl; lia |]. simpl.
  exists (sprintf_d_nl (iter st)),
    (Z.to_nat (write_buf_size c) - length (sprintf_d_nl (iter st)))%nat.
  split; [reflexivity |]. split.
  - pose proof (buffer_after_length c (iter st) Hb Hi) as L.
    unfold buffer_after in L. rewrite length_app, repeat_length in L. exact L.
  - apply sprintf_d_nl_mono. assumption.
Qed.

End Body.

End LoopFacts.
Import LoopFacts.

(** ** Runs of the loop *)

Module RunFacts.

Lemma writes_of_app (a b : list event) :
  writes_of (a ++ b) = writes_of a ++ writes_of b.
Proof.
  induction a as [| x a IH]; [reflexivity |].
  destruct x; simpl; rewrite IH; reflexivity.
Qed.

Lemma io_kinds_app (a b : list event) :
  io_kinds (a ++ b) = io_kinds a ++ io_kinds b.
Proof.
  induction a as [| x a IH]; [reflexivity |].
  destruct x; simpl; rewrite IH; reflexivity.
Qed.

(** The four ways the accounting of a [write] result goes. *)
Lemma account_ok (c : config) (fails : Z) (r : write_result) :
  ~ failed r -> account c fails r = ([], 0, false).
Proof.
  unfold failed, account. intros H.
  destruct (Z.eqb_spec (ws r) (-1)); [contradiction | reflexivity].
Qed.

Lemma account_unlimited (c : config) (fails : Z) (r : write_result) :
  failed r -> failmax c <= 0 ->
  account c fails r = ([EvPrint Stderr (MsgWriteFailed (w_errno r))], fails, false).
Proof.
  unfold failed, account. intros H Hf. rewrite H. simpl.
  destruct (Z.gtb_spec (failmax c) 0); [lia | reflexivity].
Qed.

Lemma account_counted (c : config) (fails : Z) (r : write_result) :
  failed r -> is_int (failmax c) -> 0 <= fails -> fails + 1 < failmax c ->
  account c fails r =
  ([EvPrint Stderr (MsgWriteFailed (w_errno r))], fails + 1, false).
Proof.
  unfold failed, account. intros H Hi H0 Hf. rewrite H. simpl.
  destruct (Z.gtb_spec (failmax c) 0); [| lia].
  rewrite to_int_id by (unfold is_int, INT_MIN, INT_MAX in *; lia).
  destruct (Z.eqb_spec (fails + 1) (failmax c)); [lia | reflexivity].
Qed.

Lemma account_fatal (c : config) (fails : Z) (r : write_result) :
  failed r -> is_int (failmax c) -> 0 <= fails -> fails + 1 = failmax c ->
  account c fails r =
  ([EvPrint Stderr (MsgWriteFailed (w_errno r));
    EvPrint Stderr MsgMaxFailcount], failmax c, true).
Proof.
  unfold failed, account. intros H Hi H0 Hf. rewrite H. simpl.
  destruct (Z.gtb_spec (failmax c) 0); [| lia].
  rewrite to_int_id by (unfold is_int, INT_MIN, INT_MAX in *; lia).
  rewrite Hf, Z.eqb_refl. reflexivity.
Qed.

Lemma loop_done (c : config) (st : loop_state) (rs : list write_result) :
  iterations c <= iter st -> loop c st rs = ([], LoopDone st).
Proof.
  intros H. destruct rs; simpl;
    destruct (Z.ltb_spec (iter st) (iterations c)); (lia || reflexivity).
Qed.

Lemma loop_cons (c : config) (st : loop_state) (r : write_result)
      (rs : list write_result) :
  iter st < iterations c ->
  loop c st (r :: rs) =
  match loop_body c st r with
  | (ev, inl st') => let (ev', e) := loop c st' rs in (ev ++ ev', e)
  | (ev, inr o) => (ev, LoopExit o)
  end.
Proof.
  intros H. simpl.
  destruct (Z.ltb_spec (iter st) (iterations c)); [reflexivity | lia].
Qed.

Lemma loop_nil (c : config) (st : loop_state) :
  iter st < iterations c -> loop c st [] = ([], LoopStarved).
Proof.
  intros H. simpl.
  destruct (Z.ltb_spec (iter st) (iterations c)); [reflexivity | lia].
Qed.

Section Run.
Variable c : config.
Hypothesis Hc : int_config c.

(** One pass that goes on to the next: the events of the pass, then the
    rest of the run from the next state. *)
Lemma loop_pass (st : loop_state) (r : write_result) (rs : list write_result)
      (ev2 : list event) (fails' : Z) :
  loop_inv c st -> iter st < iterations c ->
  account c (failures st) r = (ev2, fails', false) ->
  exists ev st',
    loop c st (r :: rs) = (ev ++ fst (loop c st' rs), snd (loop c st' rs)) /\
    loop_inv c st' /\ iter st' = iter st + 1 /\ failures st' = fails' /\
    writes_of ev = [(payload c (iter st), requested c (iter st))] /\
    io_kinds ev = KWrite :: (if iter st + 1 <? iterations c
                             then [KSleep (interval c)] else []).
Proof.
  intros Hinv Hlt Hacc.
  pose proof (loop_body_eq c Hc st Hinv Hlt r) as E. cbv zeta in E.
  rewrite Hacc in E.
  destruct (loop_body_inv c Hc st Hinv Hlt r _ _ E) as (Hinv' & Hit' & _).
  match type of E with _ = (?ev, inl ?s) => exists ev, s end.
  rewrite loop_cons, E by assumption.
  split; [destruct (loop c _ rs); reflexivity |].
  split; [exact Hinv' |]. split; [reflexivity |]. split; [reflexivity |].
  assert (W : writes_of ev2 = [] /\ io_kinds ev2 = []).
  { unfold account in Hacc.
    destruct (ws r =? -1); [| injection Hacc as <- _; split; reflexivity].
    destruct (failmax c >? 0).
    - destruct (to_int (failures st + 1) =? failmax c);
        [discriminate | injection Hacc as <- _; split; reflexivity].
    - injection Hacc as <- _; split; reflexivity. }
  destruct W as [W1 W2].
  split.
  - simpl. rewrite !writes_of_app, W1.
    destruct (negb (ws r =? -1) && negb (ws r =? requested c (iter st)));
      destruct (iter st + 1 <? iterations c); reflexivity.
  - simpl. rewrite !io_kinds_app, W2.
    destruct (negb (ws r =? -1) && negb (ws r =? requested c (iter st)));
      destruct (iter st + 1 <? iterations c); reflexivity.
Qed.

(** The pass in which [exit] is called. *)
Lemma loop_exit (st : loop_state) (r : write_result) (rs : list write_result)
      (ev2 : list event) (fails' : Z) :
  loop_inv c st -> iter st < iterations c ->
  account c (failures st) r = (ev2, fails', true) ->
  loop c st (r :: rs) =
  ([EvPrint Stdout (MsgWriting (iter st) (requested c (iter st)));
    EvWrite (payload c (iter st)) (requested c (iter st))] ++ ev2,
   LoopExit (Exited EXIT_FAILURE)).
Proof.
  intros Hinv Hlt Hacc.
  pose proof (loop_body_eq c Hc st Hinv Hlt r) as E. cbv zeta in E.
  rewrite Hacc in E. rewrite loop_cons, E by assumption. reflexivity.
Qed.

End Run.

End RunFacts.
Import RunFacts.

(** ** Streaks of failed writes *)

Module StreakFacts.

Section Streaks.
Variable c : config.
Hypothesis Hc : int_config c.

(** Failed writes below the limit are counted, and the loop goes on. *)
Lemma loop_streak (fs rest : list write_result) :
  Forall failed fs ->
  forall st : loop_state,
  loop_inv c st -> 0 <= failures st ->
  failures st + Z.of_nat (length fs) < failmax c ->
  iter st + Z.of_nat (length fs) <= iterations c ->
  exists ev st',
    loop c st (fs ++ rest) = (ev ++ fst (loop c st' rest), snd (loop c st' rest)) /\
    loop_inv c st' /\ iter st' = iter st + Z.of_nat (length fs) /\
    failures st' = failures st + Z.of_nat (length fs) /\
    length (writes_of ev) = length fs.
Proof.
  destruct Hc as (_ & _ & Hf & _).
  induction 1 as [| r fs Hr _ IH]; intros st Hinv H0 Hlim Hit.
  - exists [], st. simpl length. rewrite !Z.add_0_r.
    split_ands; try assumption; try reflexivity.
    simpl. destruct (loop c st rest); reflexivity.
  - simpl length in *. rewrite Nat2Z.inj_succ in *.
    destruct (loop_pass c Hc st r (fs ++ rest) _ _ Hinv ltac:(lia)
                (account_counted c (failures st) r Hr Hf H0 ltac:(lia)))
      as (ev1 & st1 & E1 & Hinv1 & Hit1 & Hf1 & W1 & _).
    destruct (IH st1 Hinv1 ltac:(lia) ltac:(lia) ltac:(lia))
      as (ev2 & st2 & E2 & Hinv2 & Hit2 & Hf2 & W2).
    exists (ev1 ++ ev2), st2.
    split; [| split_ands; try assumption; try lia].
    + simpl app. rewrite E1, E2. simpl. rewrite app_assoc. reflexivity.
    + rewrite writes_of_app, length_app, W1, W2. reflexivity.
Qed.

(** A write that does not fail puts the counter back to zero. *)
Lemma loop_success (r : write_result) (rest : list write_result)
      (st : loop_state) :
  ~ failed r -> loop_inv c st -> iter st < iterations c ->
  exists ev st',
    loop c st (r :: rest) = (ev ++ fst (loop c st' rest), snd (loop c st' rest)) /\
    loop_inv c st' /\ iter st' = iter st + 1 /\ failures st' = 0 /\
    length (writes_of ev) = 1%nat.
Proof.
  intros Hr Hinv Hlt.
  destruct (loop_pass c Hc st r rest _ _ Hinv Hlt (account_ok c _ r Hr))
    as (ev1 & st1 & E1 & Hinv1 & Hit1 & Hf1 & W1 & _).
  exists ev1, st1. rewrite W1. split_ands; (assumption || reflexivity).
Qed.

(** Answers whose streaks all stay below the limit are all consumed, and
    leave the counter at zero. *)
Lemma loop_recovers (pre rest : list write_result) :
  recovers (failmax c) pre ->
  forall st : loop_state,
  loop_inv c st -> failures st = 0 ->
  iter st + Z.of_nat (length pre) <= iterations c ->
  exists ev st',
    loop c st (pre ++ rest) = (ev ++ fst (loop c st' rest), snd (loop c st' rest)) /\
    loop_inv c st' /\ iter st' = iter st + Z.of_nat (length pre) /\
    failures st' = 0 /\
    length (writes_of ev) = length pre.
Proof.
  induction 1 as [| fs r pre Hfs Hlen Hr _ IH]; intros st Hinv H0 Hit.
  - exists [], st. simpl length. rewrite Z.add_0_r.
    split_ands; try assumption; try reflexivity.
    simpl. destruct (loop c st rest); reflexivity.
  - rewrite length_app in Hit. simpl length in Hit.
    rewrite Nat2Z.inj_add, Nat2Z.inj_succ in Hit.
    destruct (loop_streak fs (r :: pre ++ rest) Hfs st Hinv ltac:(lia)
                ltac:(lia) ltac:(lia))
      as (ev1 & st1 & E1 & Hinv1 & Hit1 & Hf1 & W1).
    destruct (loop_success r (pre ++ rest) st1 Hr Hinv1 ltac:(lia))
      as (ev2 & st2 & E2 & Hinv2 & Hit2 & Hf2 & W2).
    destruct (IH st2 Hinv2 Hf2 ltac:(lia))
      as (ev3 & st3 & E3 & Hinv3 & Hit3 & Hf3 & W3).
    exists (ev1 ++ ev2 ++ ev3), st3.
    split; [| split_ands; try assumption].
    + rewrite <- app_assoc, <- app_comm_cons, E1, E2. cbn [fst snd].
      rewrite E3. cbn [fst snd]. rewrite <- !app_assoc. reflexivity.
    + rewrite length_app. simpl length.
      rewrite Nat2Z.inj_add, Nat2Z.inj_succ. lia.
    + rewrite !writes_of_app, !length_app, W1, W2, W3. simpl. lia.
Qed.

(** From a counter at zero, as many failed writes in a row as the limit
    says end the process at the last of them. *)
Lemma loop_fatal (mid post : list write_result) (st : loop_state) :
  0 < failmax c -> Forall failed mid ->
  Z.of_nat (length mid) = failmax c ->
  loop_inv c st -> failures st = 0 ->
  iter st + Z.of_nat (length mid) <= iterations c ->
  exists ev p n errno,
    loop c st (mid ++ post) =
      (ev ++ [EvWrite p n; EvPrint Stderr (MsgWriteFailed errno);
              EvPrint Stderr MsgMaxFailcount],
       LoopExit (Exited EXIT_FAILURE)) /\
    S (length (writes_of ev)) = length mid.
Proof.
  intros Hpos Hmid Hlen Hinv H0 Hit.
  destruct Hc as (_ & _ & Hf & _).
  destruct (exists_last (l := mid)) as (fs & r & ->).
  { intros ->. simpl in Hlen. lia. }
  apply Forall_app in Hmid. destruct Hmid as [Hfs Hr].
  inversion Hr as [| ? ? Hr' _]; subst.
  rewrite length_app in *. simpl length in *.
  rewrite Nat2Z.inj_add in *. change (Z.of_nat 1) with 1 in *.
  destruct (loop_streak fs (r :: post) Hfs st Hinv ltac:(lia)
              ltac:(lia) ltac:(lia))
    as (ev1 & st1 & E1 & Hinv1 & Hit1 & Hf1 & W1).
  assert (A : account c (failures st1) r =
              ([EvPrint Stderr (MsgWriteFailed (w_errno r));
                EvPrint Stderr MsgMaxFailcount], failmax c, true))
    by (apply account_fatal; (assumption || lia)).
  pose proof (loop_exit c Hc st1 r post _ _ Hinv1 ltac:(lia) A) as E2.
  exists (ev1 ++ [EvPrint Stdout (MsgWriting (iter st1) (requested c (iter st1)))]),
    (payload c (iter st1)), (requested c (iter st1)), (w_errno r).
  rewrite <- app_assoc.
  change ([r] ++ post) with (r :: post).
  rewrite E1, E2. cbn [fst snd]. split.
  - rewrite <- app_assoc. reflexivity.
  - rewrite writes_of_app, length_app, W1. simpl. lia.
Qed.

(** With no limit on failures the loop makes all its passes, whatever
    the writes answer. *)
Lemma loop_unlimited (rs : list write_result) :
  failmax c <= 0 ->
  forall st : loop_state,
  loop_inv c st -> failures st = 0 ->
  iterations c - iter st <= Z.of_nat (length rs) ->
  exists ev st',
    loop c st rs = (ev, LoopDone st') /\
    length (writes_of ev) = Z.to_nat (iterations c - iter st).
Proof.
  intros Hf. induction rs as [| r rs IH]; intros st Hinv H0 Hlen.
  - simpl in Hlen. exists [], st. rewrite loop_done by lia.
    split; [reflexivity |]. simpl. lia.
  - destruct (Z.lt_ge_cases (iter st) (iterations c)) as [Hlt | Hge].
    2:{ exists [], st. rewrite loop_done by lia.
        split; [reflexivity |]. simpl. lia. }
    assert (A : exists ev2, account c (failures st) r = (ev2, 0, false)).
    { destruct (Z.eq_dec (ws r) (-1)) as [E | E].
      - eexists. rewrite account_unlimited, H0 by assumption. reflexivity.
      - eexists. apply account_ok. exact E. }
    destruct A as [ev2 A].
    destruct (loop_pass c Hc st r rs _ _ Hinv Hlt A)
      as (ev1 & st1 & E1 & Hinv1 & Hit1 & Hf1 & W1 & _).
    simpl length in Hlen. rewrite Nat2Z.inj_succ in Hlen.
    destruct (IH st1 Hinv1 Hf1 ltac:(lia)) as (ev3 & st3 & E3 & W3).
    exists (ev1 ++ ev3), st3. rewrite E1, E3. simpl.
    split; [reflexivity |].
    rewrite writes_of_app, length_app, W1, W3, Hit1. simpl.
    replace (iterations c - iter st) with (Z.succ (iterations c - (iter st + 1))) by lia.
    rewrite Z2Nat.inj_succ by lia. reflexivity.
Qed.

End Streaks.

End StreakFacts.
Import StreakFacts.

(** ** What the loop hands to [write], and its writes and sleeps *)

Module TraceFacts.

Lemma account_silent (c : config) (fails : Z) (r : write_result) :
  let '(ev, _, _) := account c fails r in
  writes_of ev = [] /\ io_kinds ev = [] /\ filter is_alloc ev = [].
Proof.
  unfold account.
  destruct (ws r =? -1); [| repeat split].
  destruct (failmax c >? 0); [| repeat split].
  destruct (to_int (fails + 1) =? failmax c); repeat split.
Qed.

Lemma loop_body_no_alloc (c : config) (st : loop_state) (r : write_result) :
  filter is_alloc (fst (loop_body c st r)) = [].
Proof.
  unfold loop_body.
  pose proof (account_silent c (failures st) r) as H.
  destruct (account c (failures st) r) as [[ev2 f'] [|]];
    destruct H as (_ & _ & H); cbn [fst].
  - rewrite filter_app, H. reflexivity.
  - rewrite !filter_app, H.
    destruct (negb (ws r =? -1) && negb (ws r =? _));
      destruct (to_int (iter st + 1) <? iterations c); reflexivity.
Qed.

Lemma loop_no_alloc (c : config) (rs : list write_result) (st : loop_state) :
  filter is_alloc (fst (loop c st rs)) = [].
Proof.
  revert st. induction rs as [| r rs IH]; intros st; simpl;
    destruct (iter st <? iterations c); try reflexivity.
  pose proof (loop_body_no_alloc c st r) as H.
  destruct (loop_body c st r) as [ev [st' | o]]; cbn [fst] in *.
  - specialize (IH st'). destruct (loop c st' rs) as [ev' e'].
    cbn [fst] in *. rewrite filter_app, H, IH. reflexivity.
  - exact H.
Qed.

Section Traces.
Variable c : config.
Hypothesis Hc : int_config c.

(** The [k]-th [write] of a run of the loop is the one of iteration
    [iter st + k], and that iteration is below [iterations]. *)
Lemma loop_writes (rs : list write_result) :
  forall (st : loop_state) (k : nat) (p : list byte) (n : Z),
  loop_inv c st ->
  nth_error (writes_of (fst (loop c st rs))) k = Some (p, n) ->
  p = payload c (iter st + Z.of_nat k) /\
  n = requested c (iter st + Z.of_nat k) /\
  iter st + Z.of_nat k < iterations c.
Proof.
  induction rs as [| r rs IH]; intros st k p n Hinv Hk.
  - destruct (Z.lt_ge_cases (iter st) (iterations c)) as [Hlt | Hge].
    + rewrite loop_nil in Hk by assumption. destruct k; discriminate.
    + rewrite loop_done in Hk by assumption. destruct k; discriminate.
  - destruct (Z.lt_ge_cases (iter st) (iterations c)) as [Hlt | Hge].
    2:{ rewrite loop_done in Hk by assumption. destruct k; discriminate. }
    pose proof (account_silent c (failures st) r) as Hs.
    destruct (account c (failures st) r) as [[ev2 f'] [|]] eqn:A;
      destruct Hs as (Hs & _).
    + rewrite (loop_exit c Hc st r rs _ _ Hinv Hlt A) in Hk.
      cbn [fst] in Hk. rewrite writes_of_app, Hs in Hk. simpl in Hk.
      destruct k as [| k]; [| destruct k; discriminate].
      injection Hk as <- <-. rewrite Z.add_0_r. auto.
    + destruct (loop_pass c Hc st r rs _ _ Hinv Hlt A)
        as (ev1 & st1 & E1 & Hinv1 & Hit1 & _ & W1 & _).
      rewrite E1 in Hk. cbn [fst] in Hk. rewrite writes_of_app, W1 in Hk.
      destruct k as [| k].
      * injection Hk as <- <-. rewrite Z.add_0_r. auto.
      * simpl in Hk. destruct (IH st1 k p n Hinv1 Hk) as (-> & -> & Hb).
        rewrite Hit1 in *. rewrite Nat2Z.inj_succ.
        replace (iter st + Z.succ (Z.of_nat k))
          with (iter st + 1 + Z.of_nat k) by lia.
        auto.
Qed.

(** The writes and sleeps of a run of the loop that was not starved:
    writes with a sleep between each two.  A run that leaves the loop
    normally has made all the passes that were left. *)
Lemma loop_pattern (rs : list write_result) :
  forall (st : loop_state) (tr : list event) (le : loop_end),
  loop_inv c st -> loop c st rs = (tr, le) -> le <> LoopStarved ->
  exists m : nat,
    io_kinds tr = write_sleep_pattern m (interval c) /\
    Z.of_nat m <= Z.max 0 (iterations c - iter st) /\
    (iter st < iterations c -> (1 <= m)%nat) /\
    (forall st', le = LoopDone st' ->
                 Z.of_nat m = Z.max 0 (iterations c - iter st)).
Proof.
  induction rs as [| r rs IH]; intros st tr le Hinv E Hle.
  - destruct (Z.lt_ge_cases (iter st) (iterations c)) as [Hlt | Hge].
    + rewrite loop_nil in E by assumption. injection E as _ <-. contradiction.
    + rewrite loop_done in E by assumption. injection E as <- <-.
      exists O. simpl. repeat split; lia.
  - destruct (Z.lt_ge_cases (iter st) (iterations c)) as [Hlt | Hge].
    2:{ rewrite loop_done in E by assumption. injection E as <- <-.
        exists O. simpl. repeat split; lia. }
    pose proof (account_silent c (failures st) r) as Hs.
    destruct (account c (failures st) r) as [[ev2 f'] [|]] eqn:A;
      destruct Hs as (_ & Hs & _).
    + rewrite (loop_exit c Hc st r rs _ _ Hinv Hlt A) in E.
      injection E as <- <-. exists 1%nat.
      cbn [io_kinds]. rewrite Hs. simpl.
      repeat split; try lia. intros st' H. discriminate.
    + destruct (loop_pass c Hc st r rs _ _ Hinv Hlt A)
        as (ev1 & st1 & E1 & Hinv1 & Hit1 & _ & _ & K1).
      rewrite E1 in E. injection E as <- <-.
      destruct (loop c st1 rs) as [tr1 le1] eqn:E2. cbn [fst snd] in *.
      destruct (IH st1 tr1 le1 Hinv1 E2 Hle) as (m & Hm & Hmle & Hm1 & Hdone).
      rewrite Hit1 in *.
      exists (S m). rewrite io_kinds_app, K1, Hm.
      destruct (Z.ltb_spec (iter st + 1) (iterations c)) as [Hnext | Hlast].
      * specialize (Hm1 Hnext). destruct m as [| m]; [lia |].
        split; [reflexivity |]. split; [lia |]. split; [lia |].
        intros st' H. specialize (Hdone st' H). lia.
      * assert (m = O) by lia. subst m.
        split; [reflexivity |]. split; [lia |]. split; [lia |].
        intros st' H. lia.
Qed.

End Traces.

(** ** What [line_writer] does around the loop *)

Lemma line_writer_acquired (c : config) (e : env) :
  acquired c e ->
  line_writer c e =
  let ev0 := prologue c ++ [EvOpen (filename c)] in
  let ev1 := if negb (excl_lock c =? 0) then [EvFlock] else [] in
  match loop c (initial_state c) (write_rets e) with
  | (ev, LoopDone _) => (ev0 ++ ev1 ++ ev ++ [EvClose; EvFree], Returned 0)
  | (ev, LoopExit o) => (ev0 ++ ev1 ++ ev, o)
  | (ev, LoopStarved) => (ev0 ++ ev1 ++ ev, Starved)
  end.
Proof.
  intros [Ho Hl]. unfold line_writer. cbv zeta.
  destruct (Z.eqb_spec (open_ret e) (-1)); [contradiction |].
  destruct Hl as [Hl | Hl].
  - rewrite Hl. reflexivity.
  - destruct (Z.eqb_spec (flock_ret e) (-1)); [contradiction |].
    rewrite andb_false_r. reflexivity.
Qed.

Lemma line_writer_not_acquired (c : config) (e : env) :
  ~ acquired c e ->
  exists ev,
    line_writer c e = (prologue c ++ EvOpen (filename c) :: ev, Returned 1) /\
    writes_of ev = [] /\ io_kinds ev = [] /\ filter is_alloc ev = [].
Proof.
  intros H. unfold line_writer. cbv zeta.
  destruct (Z.eqb_spec (open_ret e) (-1)) as [Ho | Ho].
  - exists [EvPrint Stderr (MsgOpenFailed (filename c) (open_errno e))].
    rewrite <- (app_assoc (prologue c)). repeat split.
  - destruct (Z.eqb_spec (excl_lock c) 0) as [Hx | Hx];
      [exfalso; apply H; split; auto |].
    destruct (Z.eqb_spec (flock_ret e) (-1)) as [Hl | Hl];
      [| exfalso; apply H; split; auto].
    exists [EvFlock; EvPrint Stderr (MsgLockFailed (filename c) (flock_errno e))].
    cbn [negb andb]. rewrite <- (app_assoc (prologue c)). repeat split.
Qed.

Lemma acquired_dec (c : config) (e : env) : acquired c e \/ ~ acquired c e.
Proof.
  unfold acquired.
  destruct (Z.eq_dec (open_ret e) (-1)); [right; tauto |].
  destruct (Z.eq_dec (excl_lock c) 0); [left; tauto |].
  destruct (Z.eq_dec (flock_ret e) (-1)); [right | left]; tauto.
Qed.

(** The writes of a run of [line_writer] are those of its loop. *)
Lemma line_writer_writes (c : config) (e : env) :
  writes_of (fst (line_writer c e)) = [] \/
  writes_of (fst (line_writer c e)) =
  writes_of (fst (loop c (initial_state c) (write_rets e))).
Proof.
  destruct (acquired_dec c e) as [H | H].
  - right. rewrite line_writer_acquired by assumption. cbv zeta.
    destruct (loop c (initial_state c) (write_rets e)) as [ev [st | o |]];
      cbn [fst]; rewrite !writes_of_app;
      destruct (negb (excl_lock c =? 0)); simpl;
      rewrite ?app_nil_r; reflexivity.
  - left. destruct (line_writer_not_acquired c e H) as (ev & -> & W & _).
    cbn [fst]. rewrite writes_of_app. simpl. exact W.
Qed.

End TraceFacts.
Import TraceFacts.

(** * The claims about the write loop *)

Lemma sample_int_config (its fmax bs : Z) :
  is_int its -> is_int fmax -> is_int bs ->
  int_config (sample_config its fmax bs).
Proof.
  unfold int_config, is_int, INT_MIN, INT_MAX. simpl. lia.
Qed.

Lemma small_is_int (z : Z) : 0 <= z <= 1000000 -> is_int z.
Proof. unfold is_int, INT_MIN, INT_MAX. lia. Qed.

Lemma sample_acquired (its fmax bs : Z) (rs : list write_result) :
  acquired (sample_config its fmax bs) (sample_env rs).
Proof. split; [discriminate | left; reflexivity]. Qed.

(** C2. With a limit [failmax = N > 0]: when, after answers in which every
    streak of failures stayed below the limit, N writes in a row fail, the
    process ends at the N-th of them with [exit(EXIT_FAILURE)]: after that
    write come the two messages on stderr and nothing else (no sleep, no
    further write; the writes made are those answered so far).  With
    [failmax = 0] the run makes all its iterations and returns, whatever the
    writes answer (even if all of them fail). *)
Theorem failure_limit_terminates (c : config) (e : env) :
  int_config c -> acquired c e ->
  (0 < failmax c ->
   forall pre mid post : list write_result,
   write_rets e = pre ++ mid ++ post ->
   recovers (failmax c) pre ->
   Forall failed mid -> Z.of_nat (length mid) = failmax c ->
   Z.of_nat (length pre) + failmax c <= iterations c ->
   exists ev p n errno,
     line_writer c e =
       (ev ++ [EvWrite p n; EvPrint Stderr (MsgWriteFailed errno);
               EvPrint Stderr MsgMaxFailcount], Exited EXIT_FAILURE) /\
     S (length (writes_of ev)) = (length pre + length mid)%nat) /\
  (failmax c = 0 ->
   iterations c <= Z.of_nat (length (write_rets e)) ->
   exists ev,
     line_writer c e = (ev, Returned 0) /\
     length (writes_of ev) = Z.to_nat (iterations c)).
Proof.
  intros Hc Ha. rewrite line_writer_acquired by assumption. cbv zeta. split.
  - intros Hpos pre mid post -> Hpre Hmid Hlen Hit.
    destruct (loop_recovers c Hc pre (mid ++ post) Hpre (initial_state c)
                (initial_inv c) eq_refl ltac:(simpl; lia))
      as (ev1 & st1 & E1 & Hinv1 & Hit1 & Hf1 & W1).
    simpl in Hit1.
    destruct (loop_fatal c Hc mid post st1 Hpos Hmid Hlen Hinv1 Hf1 ltac:(lia))
      as (ev2 & p & n & errno & E2 & W2).
    rewrite E1, E2. cbn [fst snd].
    eexists. exists p, n, errno. split.
    + rewrite !app_assoc. reflexivity.
    + rewrite !writes_of_app, !length_app, W1, <- W2.
      destruct (negb (excl_lock c =? 0)); simpl; lia.
  - intros H0 Hlen.
    destruct (loop_unlimited c Hc (write_rets e) ltac:(lia) (initial_state c)
                (initial_inv c) eq_refl ltac:(simpl; lia))
      as (ev & st' & E & W).
    rewrite E. eexists. split; [reflexivity |].
    rewrite !writes_of_app, !length_app, W.
    destruct (negb (excl_lock c =? 0)); simpl; rewrite Z.sub_0_r; lia.
Qed.

Lemma failure_limit_terminates_witness :
  (exists ev p n errno,
     line_writer (sample_config 10 2 0)
       (sample_env [bad_write; ok_write; bad_write; bad_write; ok_write]) =
       (ev ++ [EvWrite p n; EvPrint Stderr (MsgWriteFailed errno);
               EvPrint Stderr MsgMaxFailcount], Exited EXIT_FAILURE) /\
     S (length (writes_of ev)) = 4%nat) /\
  (exists ev,
     line_writer (sample_config 3 0 0)
       (sample_env [bad_write; bad_write; bad_write]) = (ev, Returned 0) /\
     length (writes_of ev) = 3%nat).
Proof.
  split.
  - apply (proj1 (failure_limit_terminates (sample_config 10 2 0)
             (sample_env [bad_write; ok_write; bad_write; bad_write; ok_write])
             (sample_int_config 10 2 0 ltac:(apply small_is_int; lia)
                ltac:(apply small_is_int; lia) ltac:(apply small_is_int; lia))
             (sample_acquired _ _ _ _))
           ltac:(simpl; lia)
           [bad_write; ok_write] [bad_write; bad_write] [ok_write]).
    + reflexivity.
    + apply (recovers_streak 2 [bad_write] ok_write []).
      * repeat constructor.
      * simpl. lia.
      * unfold failed. simpl. lia.
      * constructor.
    + repeat constructor.
    + reflexivity.
    + simpl. lia.
  - apply (proj2 (failure_limit_terminates (sample_config 3 0 0)
             (sample_env [bad_write; bad_write; bad_write])
             (sample_int_config 3 0 0 ltac:(apply small_is_int; lia)
                ltac:(apply small_is_int; lia) ltac:(apply small_is_int; lia))
             (sample_acquired _ _ _ _))).
    + reflexivity.
    + simpl. lia.
Defined.

(** The loop leaves through [exit] only with the failure status. *)
Lemma loop_body_exit_status (c : config) (st : loop_state) (r : write_result)
      (ev : list event) (o : outcome) :
  loop_body c st r = (ev, inr o) -> o = Exited EXIT_FAILURE.
Proof.
  unfold loop_body.
  destruct (account c (failures st) r) as [[ev2 f'] [|]]; intros E.
  - injection E as _ <-. reflexivity.
  - discriminate.
Qed.

Lemma loop_exit_status (c : config) (rs : list write_result) :
  forall (st : loop_state) (ev : list event) (o : outcome),
  loop c st rs = (ev, LoopExit o) -> o = Exited EXIT_FAILURE.
Proof.
  induction rs as [| r rs IH]; intros st ev o; simpl;
    destruct (iter st <? iterations c); try discriminate.
  destruct (loop_body c st r) as [ev1 [st1 | o1]] eqn:B.
  - destruct (loop c st1 rs) as [ev2 le] eqn:L. intros E.
    injection E as _ ->. exact (IH _ _ _ L).
  - intros E. injection E as _ <-. exact (loop_body_exit_status _ _ _ _ _ B).
Qed.

(** C7. In every run of [line_writer] that is not cut short by the model
    (its [write] answers did not run out), the writes and sleeps alternate:
    each write but the last made is followed by [sleep(interval)], the last
    by none.  A run that returns 0 made [iterations] writes, so it slept
    after each of the first [iterations - 1] and not after the last. *)
Theorem sleep_between_writes (c : config) (e : env) (tr : list event)
        (o : outcome) :
  int_config c -> line_writer c e = (tr, o) -> o <> Starved ->
  exists m : nat,
    io_kinds tr = write_sleep_pattern m (interval c) /\
    Z.of_nat m <= Z.max 0 (iterations c) /\
    (o = Returned 0 -> Z.of_nat m = Z.max 0 (iterations c)).
Proof.
  intros Hc E Ho. destruct (acquired_dec c e) as [Ha | Ha].
  - rewrite line_writer_acquired in E by assumption. cbv zeta in E.
    destruct (loop c (initial_state c) (write_rets e)) as [ev le] eqn:L.
    assert (Hle : le <> LoopStarved).
    { intros ->. injection E as _ <-. contradiction. }
    destruct (loop_pattern c Hc _ _ _ _ (initial_inv c) L Hle)
      as (m & Hm & Hmle & _ & Hdone).
    simpl iter in *. rewrite Z.sub_0_r in *.
    exists m.
    assert (K : io_kinds tr = io_kinds ev).
    { destruct le; injection E as <- _; cbn [io_kinds];
        rewrite !io_kinds_app; destruct (negb (excl_lock c =? 0)); simpl;
        rewrite ?app_nil_r; reflexivity. }
    rewrite K. split; [exact Hm |]. split; [exact Hmle |].
    intros ->. destruct le as [st' | o' |].
    + apply (Hdone st'). reflexivity.
    + injection E as _ ->.
      pose proof (loop_exit_status c _ _ _ _ L). discriminate.
    + contradiction.
  - destruct (line_writer_not_acquired c e Ha) as (ev & E' & _ & K & _).
    rewrite E' in E.
    pose proof (f_equal fst E) as E1. pose proof (f_equal snd E) as E2.
    cbn [fst snd] in E1, E2. subst tr o.
    exists O. rewrite io_kinds_app. simpl. rewrite K.
    split; [reflexivity |]. split; [lia |]. discriminate.
Qed.

Lemma sleep_between_writes_witness :
  exists m : nat,
    io_kinds (fst (line_writer (sample_config 3 5 0)
                     (sample_env [ok_write; bad_write; ok_write]))) =
    write_sleep_pattern m 5 /\
    Z.of_nat m <= Z.max 0 3 /\
    (Returned 0 = Returned 0 -> Z.of_nat m = Z.max 0 3).
Proof.
  apply (sleep_between_writes (sample_config 3 5 0)
           (sample_env [ok_write; bad_write; ok_write]) _ (Returned 0)).
  - apply sample_int_config; apply small_is_int; lia.
  - reflexivity.
  - discriminate.
Defined.

(** ** The bytes handed to [write] *)

Lemma firstn_repeat {A : Type} (x : A) (n k : nat) :
  firstn n (repeat x k) = repeat x (Nat.min n k).
Proof.
  revert n. induction k as [| k IH]; intros [| n]; simpl; auto.
  rewrite IH. reflexivity.
Qed.

(** Without a block size the text is handed over, and nothing else. *)
Lemma payload_text (c : config) (i : Z) :
  blocksize c = 0 -> 0 <= i ->
  payload c i = fmt_d i ++ [LF] /\
  requested c i = Z.of_nat (length (fmt_d i ++ [LF])).
Proof.
  intros Hb Hi.
  assert (L : (length (fmt_d i) + 1)%nat = length (fmt_d i ++ [LF]))
    by (rewrite length_app; reflexivity).
  unfold payload, requested, write_actual, buffer_after.
  rewrite Hb. cbn [Z.eqb]. rewrite Nat2Z.id, sprintf_d_nl_split, L.
  split; [| reflexivity].
  rewrite <- !app_assoc, (app_assoc (fmt_d i)), firstn_app, firstn_all, Nat.sub_diag.
  simpl. apply app_nil_r.
Qed.

(** With a block size the first [blocksize] bytes of the buffer are handed
    over: the text, its NUL, and carriage returns. *)
Lemma payload_block (c : config) (i : Z) :
  is_int (blocksize c) -> 0 < blocksize c -> 0 <= i ->
  requested c i = blocksize c /\
  Z.of_nat (length (payload c i)) = blocksize c /\
  payload c i =
    firstn (Z.to_nat (blocksize c))
      (fmt_d i ++ [LF; NUL] ++
       repeat CR (Z.to_nat (Z.max (blocksize c) BS_DEF) - length (fmt_d i) - 2)).
Proof.
  intros Hb Hpos Hi.
  assert (R : requested c i = blocksize c).
  { unfold requested, write_actual.
    destruct (Z.eqb_spec (blocksize c) 0); [lia |].
    apply to_size_t_id; [lia | assumption]. }
  split; [exact R |]. unfold payload. rewrite R. split.
  - rewrite length_firstn, buffer_after_length, write_buf_size_max by assumption.
    unfold BS_DEF. lia.
  - unfold buffer_after. rewrite write_buf_size_max, sprintf_d_nl_length by assumption.
    unfold sprintf_d_nl. rewrite <- app_assoc. do 4 f_equal. lia.
Qed.

(** C4. The [i]-th [write] of a run (counting from 0) is the one of
    iteration [i].  With [blocksize = 0] it is handed the decimal rendering
    of [i] (decimal digits whose value is [i], without a leading zero when
    [i] is not 0) followed by a newline, and the byte count asked for is the
    length of that text.  With [blocksize > 0] the byte count asked for is
    [blocksize], and that many bytes are handed over. *)
Theorem write_payload_and_count (c : config) (e : env) (i : nat)
        (p : list byte) (n : Z) :
  int_config c ->
  nth_error (writes_of (fst (line_writer c e))) i = Some (p, n) ->
  (blocksize c = 0 ->
   p = fmt_d (Z.of_nat i) ++ [LF] /\ n = Z.of_nat (length p) /\
   Forall is_digit (fmt_d (Z.of_nat i)) /\
   decimal_value (fmt_d (Z.of_nat i)) = Z.of_nat i /\
   (i <> O -> exists b rest,
      fmt_d (Z.of_nat i) = b :: rest /\ digit_value b <> 0)) /\
  (0 < blocksize c -> n = blocksize c /\ Z.of_nat (length p) = blocksize c).
Proof.
  intros Hc Hi.
  assert (L : nth_error (writes_of (fst (loop c (initial_state c) (write_rets e)))) i
              = Some (p, n)).
  { destruct (line_writer_writes c e) as [W | W]; rewrite W in Hi;
      [destruct i; discriminate | exact Hi]. }
  destruct (loop_writes c Hc _ _ _ _ _ (initial_inv c) L) as (-> & -> & Hlt).
  simpl iter in *. rewrite Z.add_0_l in *.
  destruct Hc as (_ & Hit & _ & Hb).
  split.
  - intros H0. destruct (payload_text c (Z.of_nat i) H0 ltac:(lia)) as [-> ->].
    split; [reflexivity |]. split; [reflexivity |].
    rewrite fmt_d_nonneg by lia. split; [apply udigits_digits |].
    unfold is_int, INT_MAX in Hit.
    split; [apply udigits_value; simpl; lia |].
    intros Hnz. apply udigits_head. simpl. lia.
  - intros Hpos.
    destruct (payload_block c (Z.of_nat i) Hb Hpos ltac:(lia)) as (R & Len & _).
    split; assumption.
Qed.

Lemma write_payload_and_count_witness :
  (["1"%byte; LF] = fmt_d (Z.of_nat 1) ++ [LF] /\
   2 = Z.of_nat (length ["1"%byte; LF]) /\
   Forall is_digit (fmt_d (Z.of_nat 1)) /\
   decimal_value (fmt_d (Z.of_nat 1)) = Z.of_nat 1 /\
   (1%nat <> O -> exists b rest,
      fmt_d (Z.of_nat 1) = b :: rest /\ digit_value b <> 0)) /\
  (8 = 8 /\
   Z.of_nat (length (["1"%byte; LF; NUL] ++ repeat CR 5)) = 8).
Proof.
  split.
  - apply (proj1 (write_payload_and_count (sample_config 3 5 0)
             (sample_env [ok_write; ok_write; ok_write]) 1 ["1"%byte; LF] 2
             ltac:(apply sample_int_config; apply small_is_int; lia)
             eq_refl)).
    reflexivity.
  - apply (proj2 (write_payload_and_count (sample_config 3 5 8)
             (sample_env [ok_write; ok_write; ok_write]) 1
             (["1"%byte; LF; NUL] ++ repeat CR 5) 8
             ltac:(apply sample_int_config; apply small_is_int; lia)
             eq_refl)).
    simpl. lia.
Defined.

(** C8, as first stated, fails: with [blocksize = 8] the first write is
    handed the text ["0\n"], then the NUL that [strcpy] copies with it, and
    only then carriage returns; the rest after the text is not all filler. *)
Lemma block_payload_has_nul :
  exists p : list byte,
    nth_error (writes_of (fst (line_writer (sample_config 1 5 8)
                                 (sample_env [ok_write])))) 0 = Some (p, 8) /\
    p = ["0"%byte; LF; NUL; CR; CR; CR; CR; CR] /\
    p <> fmt_d 0 ++ [LF] ++ repeat CR 6.
Proof.
  eexists. split; [reflexivity |]. split; [reflexivity | discriminate].
Qed.

(** C8, amended. With [blocksize > 0] the [i]-th [write] is handed the first
    [blocksize] bytes of: the text of iteration [i], the NUL that ends it,
    and carriage returns up to the size of the buffer, which is
    [max(blocksize, 1024)]; so where [blocksize] is longer than the text, the
    text, one NUL, and carriage returns for the rest.  The buffer is
    allocated and filled once, before anything else is done, and never again
    in the run. *)
Theorem block_payload_shape (c : config) (e : env) (i : nat)
        (p : list byte) (n : Z) :
  int_config c -> 0 < blocksize c ->
  nth_error (writes_of (fst (line_writer c e))) i = Some (p, n) ->
  let text := fmt_d (Z.of_nat i) ++ [LF] in
  let size := Z.max (blocksize c) BS_DEF in
  p = firstn (Z.to_nat (blocksize c))
        (text ++ [NUL] ++ repeat CR (Z.to_nat size - length text - 1)) /\
  (Z.of_nat (length text) < blocksize c ->
   p = text ++ [NUL] ++
       repeat CR (Z.to_nat (blocksize c) - length text - 1)) /\
  exists rest,
    fst (line_writer c e) =
      banner c ++ [EvMalloc size; EvMemset CR size] ++ rest /\
    filter is_alloc rest = [].
Proof.
  intros Hc Hpos Hi text size.
  assert (L : nth_error (writes_of (fst (loop c (initial_state c) (write_rets e)))) i
              = Some (p, n)).
  { destruct (line_writer_writes c e) as [W | W]; rewrite W in Hi;
      [destruct i; discriminate | exact Hi]. }
  destruct (loop_writes c Hc _ _ _ _ _ (initial_inv c) L) as (-> & -> & Hlt).
  simpl iter in *. rewrite Z.add_0_l in *.
  pose proof Hc as (_ & Hit & _ & Hb).
  destruct (payload_block c (Z.of_nat i) Hb Hpos ltac:(lia)) as (_ & _ & P).
  assert (P' : payload c (Z.of_nat i) =
               firstn (Z.to_nat (blocksize c))
                 (text ++ [NUL] ++ repeat CR (Z.to_nat size - length text - 1))).
  { rewrite P. unfold text, size. rewrite <- app_assoc, length_app.
    cbn [length app]. do 5 f_equal. lia. }
  split; [exact P' |]. split.
  - intros Hlen. rewrite P'.
    rewrite app_assoc, firstn_app, firstn_all2
      by (rewrite length_app; simpl; lia).
    rewrite <- app_assoc. do 2 f_equal.
    rewrite length_app, firstn_repeat. f_equal.
    unfold size, BS_DEF. simpl length. lia.
  - assert (S : write_buf_size c = size) by (apply write_buf_size_max; assumption).
    destruct (acquired_dec c e) as [Ha | Ha].
    + rewrite line_writer_acquired by assumption. cbv zeta.
      pose proof (loop_no_alloc c (write_rets e) (initial_state c)) as N.
      destruct (loop c (initial_state c) (write_rets e)) as [ev le].
      cbn [fst] in N. unfold prologue. rewrite S.
      destruct le; cbn [fst]; rewrite <- !app_assoc;
        eexists; (split; [reflexivity |]);
        rewrite !filter_app, N; destruct (negb (excl_lock c =? 0)); reflexivity.
    + destruct (line_writer_not_acquired c e Ha) as (ev & -> & _ & _ & N).
      cbn [fst]. unfold prologue. rewrite S, <- !app_assoc.
      eexists. split; [reflexivity |]. simpl. exact N.
Qed.

Lemma block_payload_shape_witness :
  let p := ["1"%byte; LF; NUL; CR; CR; CR; CR; CR] in
  let text := fmt_d (Z.of_nat 1) ++ [LF] in
  let size := Z.max 8 BS_DEF in
  p = firstn (Z.to_nat 8)
        (text ++ [NUL] ++ repeat CR (Z.to_nat size - length text - 1)) /\
  (Z.of_nat (length text) < 8 ->
   p = text ++ [NUL] ++ repeat CR (Z.to_nat 8 - length text - 1)) /\
  exists rest,
    fst (line_writer (sample_config 3 5 8)
           (sample_env [ok_write; ok_write; ok_write])) =
      banner (sample_config 3 5 8) ++
      [EvMalloc size; EvMemset CR size] ++ rest /\
    filter is_alloc rest = [].
Proof.
  apply (block_payload_shape (sample_config 3 5 8)
           (sample_env [ok_write; ok_write; ok_write]) 1
           ["1"%byte; LF; NUL; CR; CR; CR; CR; CR] 8).
  - apply sample_int_config; apply small_is_int; lia.
  - simpl. lia.
  - reflexivity.
Defined.

(** ** The failure counter *)

(** What a pass that goes on leaves in [failures]. *)
Lemma loop_body_failures (c : config) (st st' : loop_state) (r : write_result)
      (ev : list event) :
  loop_body c st r = (ev, inl st') ->
  exists ev2, account c (failures st) r = (ev2, failures st', false).
Proof.
  unfold loop_body.
  destruct (account c (failures st) r) as [[ev2 f'] [|]]; intros E.
  - discriminate.
  - injection E as _ <-. exists ev2. reflexivity.
Qed.

Ltac solve_bounds :=
  try lia; try discriminate; auto;
  try (intros (? & ? & ?); (lia || contradiction)).

(** Accounting from a counter below the limit. *)
Lemma account_bounds (c : config) (fails : Z) (r : write_result)
      (ev : list event) (fails' : Z) (exited : bool) :
  is_int (failmax c) -> 0 <= failmax c ->
  0 <= fails -> (0 < failmax c -> fails < failmax c) ->
  (failmax c = 0 -> fails = 0) ->
  account c fails r = (ev, fails', exited) ->
  0 <= fails' <= failmax c /\
  (exited = true <-> 0 < failmax c /\ failed r /\ fails' = failmax c) /\
  (failmax c = 0 -> fails' = 0).
Proof.
  intros Hi H0 Hf Hlt Hz. unfold account, failed.
  destruct (Z.eqb_spec (ws r) (-1)) as [Hw | Hw].
  - destruct (Z.gtb_spec (failmax c) 0) as [Hpos | Hnp].
    + rewrite to_int_id by (unfold is_int, INT_MIN, INT_MAX in *; lia).
      destruct (Z.eqb_spec (fails + 1) (failmax c)) as [Heq | Hne];
        intros E; injection E as <- <- <-.
      * repeat split; solve_bounds.
      * repeat split; solve_bounds.
    + intros E; injection E as <- <- <-. repeat split; solve_bounds.
  - intros E; injection E as <- <- <-. repeat split; solve_bounds.
Qed.

Lemma reachable_failures (c : config) (st : loop_state) :
  is_int (failmax c) -> 0 <= failmax c -> reachable c st ->
  0 <= failures st /\ (0 < failmax c -> failures st < failmax c) /\
  (failmax c = 0 -> failures st = 0).
Proof.
  intros Hi H0. induction 1 as [| st st' r ev _ IH Hlt B].
  - simpl. lia.
  - destruct IH as (IH1 & IH2 & IH3).
    destruct (loop_body_failures c st st' r ev B) as [ev2 A].
    destruct (account_bounds c _ r _ _ _ Hi H0 IH1 IH2 IH3 A) as (B1 & B2 & B3).
    split; [lia |]. split; [| exact B3].
    intros Hpos.
    assert (failures st' <> failmax c).
    { intros E. assert (false = true); [| discriminate].
      apply B2. repeat split; try assumption.
      unfold account in A. unfold failed.
      destruct (Z.eqb_spec (ws r) (-1)); [assumption |].
      injection A as _ A. lia. }
    lia.
Qed.

(** C10. In every state in which the loop tests its condition, [failures]
    is not negative and, when [failmax > 0], strictly below [failmax].  The
    accounting of the next [write] then leaves it at most [failmax], and
    when it leaves it at [failmax > 0] the process has called [exit]: the
    counter is never above [failmax]. *)
Theorem failures_below_limit (c : config) (st : loop_state) (r : write_result) :
  is_int (failmax c) -> 0 <= failmax c -> reachable c st ->
  (0 <= failures st /\ (0 < failmax c -> failures st < failmax c)) /\
  (let '(_, fails', exited) := account c (failures st) r in
   fails' <= failmax c /\
   (0 < failmax c -> fails' = failmax c -> exited = true)).
Proof.
  intros Hi H0 Hr.
  destruct (reachable_failures c st Hi H0 Hr) as (R1 & R2 & R3).
  split; [split; assumption |].
  destruct (account c (failures st) r) as [[ev2 f'] ex] eqn:A.
  destruct (account_bounds c _ r _ _ _ Hi H0 R1 R2 R3 A) as (B1 & B2 & _).
  split; [lia |]. intros Hpos Heq.
  apply B2. repeat split; try assumption.
  unfold account in A. unfold failed.
  destruct (Z.eqb_spec (ws r) (-1)); [assumption |].
  injection A as _ A _. lia.
Qed.

Lemma failures_below_limit_witness :
  let c := sample_config 10 2 0 in
  let st := {| iter := 1; failures := 1; write_buf := buffer_after c 0 |} in
  (0 <= failures st /\ (0 < failmax c -> failures st < failmax c)) /\
  (let '(_, fails', exited) := account c (failures st) bad_write in
   fails' <= failmax c /\
   (0 < failmax c -> fails' = failmax c -> exited = true)).
Proof.
  intros c st.
  apply (failures_below_limit c st bad_write).
  - apply small_is_int. simpl. lia.
  - simpl. lia.
  - apply (reach_step c (initial_state c) st bad_write
             (fst (loop_body c (initial_state c) bad_write))).
    + apply reach_init.
    + simpl. lia.
    + reflexivity.
Defined.

(** C3. A [write] that answers neither -1 nor the byte count asked for (a
    short write among them) is reported on stdout only, with the
    "Interrupted" notice; nothing goes to stderr; [failures] is 0 after the
    pass whatever it was before; and the pass ends in the same state, with
    the same events but for the notice, as when the [write] answers the full
    count. *)
Theorem short_write_resets_counter (c : config) (st : loop_state)
        (r : write_result) :
  let wa := write_actual c (Z.of_nat (strlen (sprintf_d_nl (iter st)))) in
  ws r <> -1 -> ws r <> wa ->
  exists ev1 ev2 st',
    loop_body c st r =
      (ev1 ++ [EvPrint Stdout (MsgInterrupted (ws r) wa)] ++ ev2, inl st') /\
    loop_body c st {| ws := wa; w_errno := w_errno r |} = (ev1 ++ ev2, inl st') /\
    failures st' = 0 /\
    filter is_stderr (ev1 ++ ev2) = [] /\
    account c (failures st) r = ([], 0, false).
Proof.
  intros wa Hne Hshort.
  assert (Hwa : wa <> -1).
  { unfold wa, write_actual, to_size_t.
    destruct (blocksize c =? 0); [lia |].
    pose proof (Z.mod_pos_bound (blocksize c) (2 ^ 64) ltac:(lia)). lia. }
  unfold loop_body. fold wa.
  rewrite !account_ok by (unfold failed; simpl; assumption).
  cbn [ws].
  destruct (Z.eqb_spec (ws r) (-1)); [contradiction |].
  destruct (Z.eqb_spec (ws r) wa); [contradiction |].
  destruct (Z.eqb_spec wa (-1)); [contradiction |].
  rewrite Z.eqb_refl. cbn [negb andb].
  eexists [_; _], _, _.
  split; [reflexivity |]. split; [reflexivity |]. split; [reflexivity |].
  split; [| reflexivity].
  destruct (to_int (iter st + 1) <? iterations c); reflexivity.
Qed.

Lemma short_write_resets_counter_witness :
  let c := sample_config 10 2 8 in
  let st := {| iter := 1; failures := 1; write_buf := buffer_after c 0 |} in
  let r := {| ws := 3; w_errno := 0 |} in
  exists ev1 ev2 st',
    loop_body c st r =
      (ev1 ++ [EvPrint Stdout (MsgInterrupted 3 8)] ++ ev2, inl st') /\
    loop_body c st {| ws := 8; w_errno := 0 |} = (ev1 ++ ev2, inl st') /\
    failures st' = 0 /\
    filter is_stderr (ev1 ++ ev2) = [] /\
    account c (failures st) r = ([], 0, false).
Proof.
  intros c st r.
  apply (short_write_resets_counter c st r); vm_compute; discriminate.
Defined.

(** * The claims about the command line *)

Lemma options_loop_app (progname : string) (pre post : list getopt_ret) :
  forall (o o' : options) (g : getopt_ret),
  options_loop progname o pre = inl o' ->
  options_loop progname o (pre ++ g :: post) =
  match handle_opt progname o' g with
  | inl o'' => options_loop progname o'' post
  | inr stop => inr stop
  end.
Proof.
  induction pre as [| g0 pre IH]; intros o o' g H; simpl in *.
  - injection H as ->. reflexivity.
  - destruct (handle_opt progname o g0) as [o1 | stop]; [| discriminate].
    apply IH. exact H.
Qed.

(** What the [switch] lets through is within the bounds. *)
Lemma handle_opt_bounds (progname : string) (o o' : options) (g : getopt_ret) :
  options_in_bounds o -> handle_opt progname o g = inl o' ->
  options_in_bounds o'.
Proof.
  unfold options_in_bounds, handle_opt, fatal,
    INTERVAL_MIN, INTERVAL_MAX, ITERATION_MAX, FAILURE_MAX, BS_MAX.
  intros H. destruct g as [c optarg | c | m]; [| | discriminate].
  - destruct (Ascii.eqb c "s").
    { destruct (Z.eqb_spec (atol optarg) 0); [discriminate |].
      destruct (Z.gtb_spec (atol optarg) (60 * 60)); [discriminate |].
      destruct (Z.ltb_spec (atol optarg) 1); [discriminate |].
      intros E. injection E as <-. simpl. lia. }
    destruct (Ascii.eqb c "c").
    { destruct (Z.leb_spec (atol optarg) 0); [discriminate |].
      destruct (Z.gtb_spec (atol optarg) 666); [discriminate |].
      intros E. injection E as <-. simpl. lia. }
    destruct (Ascii.eqb c "f").
    { destruct (Z.ltb_spec (atol optarg) 0); [discriminate |].
      destruct (Z.gtb_spec (atol optarg) 100); [discriminate |].
      intros E. injection E as <-. simpl. lia. }
    destruct (Ascii.eqb c "b"); [| discriminate].
    destruct (Z.ltb_spec (to_int (atol optarg)) 0); [discriminate |].
    destruct (Z.gtb_spec (to_int (atol optarg)) (1024 * 1024 * 32)); [discriminate |].
    intros E. injection E as <-. simpl. lia.
  - destruct (Ascii.eqb c "h"); [discriminate |].
    destruct (Ascii.eqb c "l"); [| discriminate].
    intros E. injection E as <-. simpl. lia.
Qed.

Lemma options_loop_bounds (progname : string) (gs : list getopt_ret) :
  forall o o' : options,
  options_in_bounds o -> options_loop progname o gs = inl o' ->
  options_in_bounds o'.
Proof.
  induction gs as [| g gs IH]; intros o o' Ho E; simpl in E.
  - injection E as <-. exact Ho.
  - destruct (handle_opt progname o g) as [o1 | stop] eqn:H; [| discriminate].
    exact (IH o1 o' (handle_opt_bounds _ _ _ _ Ho H) E).
Qed.

(** Every configuration [main] hands to [line_writer] is made of [int]s
    within the documented bounds. *)
Lemma main_config_bounds (progname file : string) (gs : list getopt_ret)
      (o : options) :
  options_loop progname default_options gs = inl o ->
  let c := config_of o file in
  int_config c /\
  INTERVAL_MIN <= interval c <= INTERVAL_MAX /\
  0 < iterations c <= ITERATION_MAX /\
  0 <= failmax c <= FAILURE_MAX /\
  0 <= blocksize c <= BS_MAX.
Proof.
  intros E.
  assert (D : options_in_bounds default_options)
    by (unfold options_in_bounds, default_options, INTERVAL_MIN, INTERVAL_MAX,
          ITERATION_MAX, FAILURE_MAX, BS_MAX, INTERVAL_DEFAULT, FAILURE_DEFAULT;
        simpl; lia).
  pose proof (options_loop_bounds _ _ _ _ D E) as B.
  unfold options_in_bounds, INTERVAL_MIN, INTERVAL_MAX, ITERATION_MAX,
    FAILURE_MAX, BS_MAX in *.
  unfold config_of, int_config. simpl.
  rewrite !to_int_id by (unfold is_int, INT_MIN, INT_MAX; lia).
  unfold is_int, INT_MIN, INT_MAX. lia.
Qed.

(** How [main] goes on once the options are read without an [exit]. *)
Lemma main_after_options (argv : list string) (e : env)
      (rets : list getopt_ret) (positional : list string) (o : options) :
  getopt_all (posixly_correct e) optstring (tl argv) = (rets, positional) ->
  options_loop (hd EmptyString argv) default_options rets = inl o ->
  main argv e =
  if negb (Z.of_nat (length positional) =? 1) then
    ([EvPrint Stderr MsgOneFilename], Exited EXIT_FAILURE)
  else
    match line_writer (config_of o (hd EmptyString positional)) e with
    | (ev, Returned _) => (ev, Returned 0)
    | (ev, o') => (ev, o')
    end.
Proof.
  intros G O. unfold main. rewrite G, O.
  replace (Z.of_nat (length argv) - Z.of_nat (length positional) + 1
           =? Z.of_nat (length argv))
    with (Z.of_nat (length positional) =? 1); [reflexivity |].
  destruct (Z.eqb_spec (Z.of_nat (length positional)) 1);
    destruct (Z.eqb_spec (Z.of_nat (length argv) - Z.of_nat (length positional) + 1)
                (Z.of_nat (length argv))); (reflexivity || lia).
Qed.

(** C1 fails on the code.  On every command line that gets as far as
    [line_writer], when the file cannot be opened, or cannot be locked where
    a lock was asked for, [line_writer] prints its complaint and returns 1,
    but [main] drops that value and returns 0: the process ends with the
    success status. *)
Theorem main_ignores_line_writer_status (argv : list string) (e : env)
        (rets : list getopt_ret) (file : string) (o : options) :
  getopt_all (posixly_correct e) optstring (tl argv) = (rets, [file]) ->
  options_loop (hd EmptyString argv) default_options rets = inl o ->
  ~ acquired (config_of o file) e ->
  exists ev,
    line_writer (config_of o file) e = (ev, Returned 1) /\
    filter is_stderr ev <> [] /\
    main argv e = (ev, Returned 0) /\
    exit_status (snd (main argv e)) = Some EXIT_SUCCESS.
Proof.
  intros G O Ha. rewrite (main_after_options argv e rets [file] o G O).
  simpl. unfold line_writer. cbv zeta.
  destruct (Z.eqb_spec (open_ret e) (-1)) as [Ho | Ho].
  - eexists. split; [reflexivity |]. split; [| split; reflexivity].
    unfold prologue. rewrite !filter_app. simpl. discriminate.
  - destruct (Z.eqb_spec (excl_lock (config_of o file)) 0) as [Hx | Hx];
      [exfalso; apply Ha; split; auto |].
    destruct (Z.eqb_spec (flock_ret e) (-1)) as [Hl | Hl];
      [| exfalso; apply Ha; split; auto].
    cbn [negb andb]. eexists. split; [reflexivity |].
    split; [| split; reflexivity].
    unfold prologue. rewrite !filter_app. simpl. discriminate.
Qed.

Lemma main_ignores_line_writer_status_witness :
  exists ev,
    line_writer (config_of default_options "/no/such/dir/out.txt") no_open_env
      = (ev, Returned 1) /\
    filter is_stderr ev <> [] /\
    main ["timed-writer"; "/no/such/dir/out.txt"]%string no_open_env
      = (ev, Returned 0) /\
    exit_status (snd (main ["timed-writer"; "/no/such/dir/out.txt"]%string
                        no_open_env)) = Some EXIT_SUCCESS.
Proof.
  apply (main_ignores_line_writer_status
           ["timed-writer"; "/no/such/dir/out.txt"]%string no_open_env
           [] "/no/such/dir/out.txt" default_options).
  - reflexivity.
  - reflexivity.
  - unfold acquired. simpl. intros [H _]. apply H. reflexivity.
Defined.

(** A run that makes all its iterations ends with status 0. *)
Lemma main_completed_status (argv : list string) (e : env)
      (rets : list getopt_ret) (file : string) (o : options) (ev : list event) :
  getopt_all (posixly_correct e) optstring (tl argv) = (rets, [file]) ->
  options_loop (hd EmptyString argv) default_options rets = inl o ->
  line_writer (config_of o file) e = (ev, Returned 0) ->
  main argv e = (ev, Returned 0).
Proof.
  intros G O L. rewrite (main_after_options argv e rets [file] o G O).
  simpl. rewrite L. reflexivity.
Qed.

(** C6. When the options are read to the end without an [exit], and the
    arguments left are none or more than one, [main] prints the "one, and
    only one, FILENAME" complaint on stderr and calls [exit(EXIT_FAILURE)];
    nothing else happens, so no file is opened. *)
Theorem one_filename_required (argv : list string) (e : env)
        (rets : list getopt_ret) (positional : list string) (o : options) :
  getopt_all (posixly_correct e) optstring (tl argv) = (rets, positional) ->
  options_loop (hd EmptyString argv) default_options rets = inl o ->
  length positional <> 1%nat ->
  main argv e = ([EvPrint Stderr MsgOneFilename], Exited EXIT_FAILURE) /\
  filter is_open (fst (main argv e)) = [].
Proof.
  intros G O Hn. rewrite (main_after_options argv e rets positional o G O).
  destruct (Z.eqb_spec (Z.of_nat (length positional)) 1); [lia |].
  split; reflexivity.
Qed.

Lemma one_filename_required_witness :
  (main ["timed-writer"; "-c"; "3"; "a.txt"; "b.txt"]%string (sample_env [])
     = ([EvPrint Stderr MsgOneFilename], Exited EXIT_FAILURE) /\
   filter is_open
     (fst (main ["timed-writer"; "-c"; "3"; "a.txt"; "b.txt"]%string
             (sample_env []))) = []) /\
  (main ["timed-writer"; "-l"]%string (sample_env [])
     = ([EvPrint Stderr MsgOneFilename], Exited EXIT_FAILURE) /\
   filter is_open (fst (main ["timed-writer"; "-l"]%string (sample_env []))) = []).
Proof.
  split.
  - apply (one_filename_required
             ["timed-writer"; "-c"; "3"; "a.txt"; "b.txt"]%string (sample_env [])
             [OptArg "c" "3"] ["a.txt"; "b.txt"]%string
             {| o_interval := 5; o_iterations := 3; o_failmax := 5;
                o_excl_lock := 0; o_blocksize := 0 |}).
    + reflexivity.
    + reflexivity.
    + simpl. lia.
  - apply (one_filename_required ["timed-writer"; "-l"]%string (sample_env [])
             [OptFlag "l"] []
             {| o_interval := 5; o_iterations := 666; o_failmax := 5;
                o_excl_lock := 1; o_blocksize := 0 |}).
    + reflexivity.
    + reflexivity.
    + simpl. lia.
Defined.

(** C9, as first stated, fails: [-h] after an option with an invalid value
    is never reached; the invalid value is reported and the status is the
    failure status. *)
Lemma help_after_invalid_flag :
  main ["timed-writer"; "-s"; "0"; "-h"]%string (sample_env [])
  = ([EvPrint Stderr (MsgInvalidSleep "0")], Exited EXIT_FAILURE).
Proof. reflexivity. Qed.

(** C9, amended. When [getopt] comes to [-h] and no option before it made
    the process exit, [main] prints the usage text on stdout and calls
    [exit(EXIT_SUCCESS)] at once: the options after [-h] are not looked at,
    the arguments left are not counted, and no file is opened. *)
Theorem help_short_circuits (argv : list string) (e : env)
        (pre post : list getopt_ret) (positional : list string) (o : options) :
  getopt_all (posixly_correct e) optstring (tl argv)
    = (pre ++ OptFlag "h" :: post, positional) ->
  options_loop (hd EmptyString argv) default_options pre = inl o ->
  main argv e =
    ([EvPrint Stdout (MsgUsage (hd EmptyString argv))], Exited EXIT_SUCCESS) /\
  filter is_open (fst (main argv e)) = [].
Proof.
  intros G O. unfold main. rewrite G.
  rewrite (options_loop_app _ pre post _ o (OptFlag "h") O).
  split; reflexivity.
Qed.

Lemma help_short_circuits_witness :
  main ["timed-writer"; "-l"; "-h"; "-s"; "0"; "a"; "b"]%string (sample_env [])
    = ([EvPrint Stdout (MsgUsage "timed-writer")], Exited EXIT_SUCCESS) /\
  filter is_open
    (fst (main ["timed-writer"; "-l"; "-h"; "-s"; "0"; "a"; "b"]%string
            (sample_env []))) = [].
Proof.
  apply (help_short_circuits
           ["timed-writer"; "-l"; "-h"; "-s"; "0"; "a"; "b"]%string
           (sample_env []) [OptFlag "l"] [OptArg "s" "0"] ["a"; "b"]%string
           {| o_interval := 5; o_iterations := 666; o_failmax := 5;
              o_excl_lock := 1; o_blocksize := 0 |}).
  - reflexivity.
  - reflexivity.
Defined.

(** C5, as first stated, fails: a value that is not a number is read as 0
    by [atol], and 0 is within the bounds of [-f] (and of [-b]); the run
    goes on, opens the file, and nothing is printed on stderr. *)
Lemma non_numeric_failmax_accepted :
  let run := main ["timed-writer"; "-f"; "abc"; "-c"; "1"; "out.txt"]%string
               (sample_env [ok_write]) in
  atol "abc" = 0 /\
  In (EvOpen "out.txt") (fst run) /\
  filter is_stderr (fst run) = [] /\
  snd run = Returned 0.
Proof. repeat split. simpl. tauto. Qed.

(** The [switch] on a numeric option whose value is out of bounds. *)
Lemma handle_opt_out_of_bounds (progname : string) (o : options)
      (c : ascii) (optarg : string) :
  out_of_bounds c optarg ->
  handle_opt progname o (OptArg c optarg) =
  inr ([EvPrint Stderr (invalid_message c optarg)], EXIT_FAILURE).
Proof.
  unfold out_of_bounds, handle_opt, invalid_message, fatal,
    INTERVAL_MIN, INTERVAL_MAX, ITERATION_MAX, FAILURE_MAX, BS_MAX.
  intros [[-> H] | [[-> H] | [[-> H] | [-> [Hi H]]]]]; cbn [Ascii.eqb Bool.eqb].
  - destruct (Z.eqb_spec (atol optarg) 0); [reflexivity |].
    destruct (Z.gtb_spec (atol optarg) (60 * 60)); [reflexivity |].
    destruct (Z.ltb_spec (atol optarg) 1); [reflexivity | lia].
  - destruct (Z.leb_spec (atol optarg) 0); [reflexivity |].
    destruct (Z.gtb_spec (atol optarg) 666); [reflexivity | lia].
  - destruct (Z.ltb_spec (atol optarg) 0); [reflexivity |].
    destruct (Z.gtb_spec (atol optarg) 100); [reflexivity | lia].
  - rewrite to_int_id by assumption.
    destruct (Z.ltb_spec (atol optarg) 0); [reflexivity |].
    destruct (Z.gtb_spec (atol optarg) (1024 * 1024 * 32)); [reflexivity | lia].
Qed.

(** A string in which [atol] finds no number has the value 0. *)
Lemma atol_no_leading_number (s : string) :
  no_leading_number s -> atol s = 0.
Proof.
  unfold no_leading_number, atol.
  destruct (skip_space s) as [| c s']; [reflexivity |].
  destruct (Ascii.eqb c "-").
  - cbn [orb]. destruct s' as [| d r]; [reflexivity |].
    intros H. cbn [read_digits]. rewrite H. reflexivity.
  - destruct (Ascii.eqb c "+").
    + cbn [orb]. destruct s' as [| d r]; [reflexivity |].
      intros H. cbn [read_digits]. rewrite H. reflexivity.
    + cbn [orb]. intros H. cbn [read_digits]. rewrite H. reflexivity.
Qed.

(** The [switch] on [-f] and [-b] with a value that reads as 0. *)
Lemma handle_opt_zero (progname : string) (o : options) (optarg : string) :
  atol optarg = 0 ->
  handle_opt progname o (OptArg "f" optarg) =
    inl {| o_interval := o_interval o; o_iterations := o_iterations o;
           o_failmax := 0; o_excl_lock := o_excl_lock o;
           o_blocksize := o_blocksize o |} /\
  handle_opt progname o (OptArg "b" optarg) =
    inl {| o_interval := o_interval o; o_iterations := o_iterations o;
           o_failmax := o_failmax o; o_excl_lock := o_excl_lock o;
           o_blocksize := 0 |}.
Proof.
  intros H. unfold handle_opt. cbn [Ascii.eqb Bool.eqb]. rewrite H.
  split; reflexivity.
Qed.

(** C5, amended. The argument of [-s], [-c], [-f] and [-b] is read with
    [atol]: leading white space, an optional sign, and the digits that
    follow, 0 when there are none.  When no option before it made the
    process exit:
    - when the value so read is outside the bounds of the option ([1, 3600]
      for [-s], [1, 666] for [-c], [0, 100] for [-f], and [0, 33554432] for
      [-b] among the values an [int] holds), [main] prints the complaint of
      that option with the argument on stderr and calls
      [exit(EXIT_FAILURE)]; nothing else happens, so no file is opened;
    - an argument with no leading number is thus fatal, in that way, for
      [-s] and [-c];
    - for [-f] and for [-b] an argument with no leading number is accepted
      as 0: the option does not end the process, and the options loop goes
      on to the next option with [failmax] (or [blocksize]) set to 0. *)
Theorem numeric_flag_validation (argv : list string) (e : env)
        (pre post : list getopt_ret) (positional : list string) (o : options)
        (c : ascii) (optarg : string) :
  getopt_all (posixly_correct e) optstring (tl argv)
    = (pre ++ OptArg c optarg :: post, positional) ->
  options_loop (hd EmptyString argv) default_options pre = inl o ->
  (out_of_bounds c optarg ->
   main argv e =
     ([EvPrint Stderr (invalid_message c optarg)], Exited EXIT_FAILURE) /\
   filter is_open (fst (main argv e)) = []) /\
  (no_leading_number optarg -> c = "s"%char \/ c = "c"%char ->
   main argv e =
     ([EvPrint Stderr (invalid_message c optarg)], Exited EXIT_FAILURE) /\
   filter is_open (fst (main argv e)) = []) /\
  (no_leading_number optarg -> c = "f"%char ->
   options_loop (hd EmptyString argv) default_options
     (pre ++ OptArg c optarg :: post) =
   options_loop (hd EmptyString argv)
     {| o_interval := o_interval o; o_iterations := o_iterations o;
        o_failmax := 0; o_excl_lock := o_excl_lock o;
        o_blocksize := o_blocksize o |} post) /\
  (no_leading_number optarg -> c = "b"%char ->
   options_loop (hd EmptyString argv) default_options
     (pre ++ OptArg c optarg :: post) =
   options_loop (hd EmptyString argv)
     {| o_interval := o_interval o; o_iterations := o_iterations o;
        o_failmax := o_failmax o; o_excl_lock := o_excl_lock o;
        o_blocksize := 0 |} post).
Proof.
  intros G O.
  assert (F : out_of_bounds c optarg ->
              main argv e =
                ([EvPrint Stderr (invalid_message c optarg)], Exited EXIT_FAILURE) /\
              filter is_open (fst (main argv e)) = []).
  { intros H. unfold main. rewrite G.
    rewrite (options_loop_app _ pre post _ o (OptArg c optarg) O).
    rewrite handle_opt_out_of_bounds by assumption.
    split; reflexivity. }
  split; [exact F |]. split; [| split].
  - intros Hn Hc. apply atol_no_leading_number in Hn. apply F.
    unfold out_of_bounds, INTERVAL_MIN, ITERATION_MAX. rewrite Hn.
    destruct Hc as [-> | ->]; [left | right; left]; split; (reflexivity || lia).
  - intros Hn ->. apply atol_no_leading_number in Hn.
    rewrite (options_loop_app _ pre post _ o (OptArg "f" optarg) O).
    rewrite (proj1 (handle_opt_zero _ o optarg Hn)). reflexivity.
  - intros Hn ->. apply atol_no_leading_number in Hn.
    rewrite (options_loop_app _ pre post _ o (OptArg "b" optarg) O).
    rewrite (proj2 (handle_opt_zero _ o optarg Hn)). reflexivity.
Qed.

Lemma numeric_flag_validation_witness :
  (main ["timed-writer"; "-l"; "-s"; "3601"; "out.txt"]%string (sample_env [])
     = ([EvPrint Stderr (MsgInvalidSleep "3601")], Exited EXIT_FAILURE) /\
   filter is_open
     (fst (main ["timed-writer"; "-l"; "-s"; "3601"; "out.txt"]%string
             (sample_env []))) = []) /\
  (main ["timed-writer"; "-c"; "many"; "out.txt"]%string (sample_env [])
     = ([EvPrint Stderr (MsgInvalidIterations "many")], Exited EXIT_FAILURE) /\
   filter is_open
     (fst (main ["timed-writer"; "-c"; "many"; "out.txt"]%string
             (sample_env []))) = []) /\
  (options_loop "timed-writer" default_options
     ([OptFlag "l"] ++ OptArg "f" "abc" :: [OptArg "c" "1"]) =
   options_loop "timed-writer"
     {| o_interval := 5; o_iterations := 666; o_failmax := 0;
        o_excl_lock := 1; o_blocksize := 0 |} [OptArg "c" "1"]) /\
  (options_loop "timed-writer" default_options
     ([] ++ OptArg "b" " -x" :: []) =
   options_loop "timed-writer"
     {| o_interval := 5; o_iterations := 666; o_failmax := 5;
        o_excl_lock := 0; o_blocksize := 0 |} []).
Proof.
  split; [| split; [| split]].
  - apply (proj1 (numeric_flag_validation
             ["timed-writer"; "-l"; "-s"; "3601"; "out.txt"]%string
             (sample_env []) [OptFlag "l"] [] ["out.txt"]%string
             {| o_interval := 5; o_iterations := 666; o_failmax := 5;
                o_excl_lock := 1; o_blocksize := 0 |} "s" "3601"
             eq_refl eq_refl)).
    left. split; [reflexivity |]. vm_compute. intros [_ H]. apply H. reflexivity.
  - apply (proj1 (proj2 (numeric_flag_validation
             ["timed-writer"; "-c"; "many"; "out.txt"]%string
             (sample_env []) [] [] ["out.txt"]%string default_options
             "c" "many" eq_refl eq_refl))).
    + vm_compute. reflexivity.
    + right. reflexivity.
  - apply (proj1 (proj2 (proj2 (numeric_flag_validation
             ["timed-writer"; "-l"; "-f"; "abc"; "-c"; "1"; "out.txt"]%string
             (sample_env []) [OptFlag "l"] [OptArg "c" "1"] ["out.txt"]%string
             {| o_interval := 5; o_iterations := 666; o_failmax := 5;
                o_excl_lock := 1; o_blocksize := 0 |} "f" "abc"
             eq_refl eq_refl)))).
    + vm_compute. reflexivity.
    + reflexivity.
  - apply (proj2 (proj2 (proj2 (numeric_flag_validation
             ["timed-writer"; "-b"; " -x"; "out.txt"]%string
             (sample_env []) [] [] ["out.txt"]%string default_options
             "b" " -x" eq_refl eq_refl)))).
    + vm_compute. reflexivity.
    + reflexivity.
Defined.

(** The value of [-b] is stored in an [int] before it is checked: a value
    beyond the [int] range is checked after it has wrapped.  Here 2^32 is
    taken as block size 0. *)
Lemma oversized_blocksize_wraps :
  let run := main ["timed-writer"; "-b"; "4294967296"; "-c"; "1"; "out.txt"]%string
               (sample_env [ok_write]) in
  atol "4294967296" = 4294967296 /\
  In (EvPrint Stdout (MsgWriteSize 0)) (fst run) /\
  In (EvOpen "out.txt") (fst run) /\
  snd run = Returned 0.
Proof. repeat split; simpl; tauto. Qed.

(** * Further properties of the code *)

(** ** What surrounds the loop in [line_writer] *)

Lemma filter_none {A : Type} (f g : A -> bool) (l : list A) :
  (forall x, g x = true -> f x = false) ->
  forallb g l = true -> filter f l = [].
Proof.
  intros H. induction l as [| x l IH]; simpl; [reflexivity |].
  intros E. apply andb_true_iff in E. destruct E as [Ex El].
  rewrite (H x Ex). exact (IH El).
Qed.

Lemma account_in_loop (c : config) (fails : Z) (r : write_result) :
  forallb in_loop (fst (fst (account c fails r))) = true.
Proof.
  unfold account.
  destruct (ws r =? -1); [| reflexivity].
  destruct (failmax c >? 0); [| reflexivity].
  destruct (to_int (fails + 1) =? failmax c); reflexivity.
Qed.

Lemma loop_body_in_loop (c : config) (st : loop_state) (r : write_result) :
  forallb in_loop (fst (loop_body c st r)) = true.
Proof.
  unfold loop_body.
  pose proof (account_in_loop c (failures st) r) as H.
  destruct (account c (failures st) r) as [[ev2 f'] [|]]; cbn [fst] in *.
  - rewrite forallb_app, H. reflexivity.
  - rewrite !forallb_app, H.
    destruct (negb (ws r =? -1) && negb (ws r =? _));
      destruct (to_int (iter st + 1) <? iterations c); reflexivity.
Qed.

(** The loop only prints, writes and sleeps. *)
Lemma loop_in_loop (c : config) (rs : list write_result) (st : loop_state) :
  forallb in_loop (fst (loop c st rs)) = true.
Proof.
  revert st. induction rs as [| r rs IH]; intros st; simpl;
    destruct (iter st <? iterations c); try reflexivity.
  pose proof (loop_body_in_loop c st r) as H.
  destruct (loop_body c st r) as [ev [st' | o]]; cbn [fst] in *.
  - specialize (IH st'). destruct (loop c st' rs) as [ev' e'].
    cbn [fst] in *. rewrite forallb_app, H, IH. reflexivity.
  - exact H.
Qed.

Lemma in_loop_not_cleanup (ev : event) : in_loop ev = true -> is_cleanup ev = false.
Proof. destruct ev; simpl; congruence. Qed.

Lemma in_loop_not_flock (ev : event) : in_loop ev = true -> is_flock ev = false.
Proof. destruct ev; simpl; congruence. Qed.

Lemma in_loop_not_open (ev : event) : in_loop ev = true -> is_open ev = false.
Proof. destruct ev; simpl; congruence. Qed.

(** The three ways [line_writer] goes, with the events of each. *)
Lemma line_writer_shape (c : config) (e : env) :
  (open_ret e = -1 /\
   line_writer c e =
     (prologue c ++ [EvOpen (filename c);
                     EvPrint Stderr (MsgOpenFailed (filename c) (open_errno e))],
      Returned 1)) \/
  (open_ret e <> -1 /\ excl_lock c <> 0 /\ flock_ret e = -1 /\
   line_writer c e =
     (prologue c ++ [EvOpen (filename c); EvFlock;
                     EvPrint Stderr (MsgLockFailed (filename c) (flock_errno e))],
      Returned 1)) \/
  (acquired c e /\
   exists ev le,
     loop c (initial_state c) (write_rets e) = (ev, le) /\
     line_writer c e =
       (prologue c ++ [EvOpen (filename c)] ++
        (if negb (excl_lock c =? 0) then [EvFlock] else []) ++ ev ++
        match le with LoopDone _ => [EvClose; EvFree] | _ => [] end,
        match le with
        | LoopDone _ => Returned 0
        | LoopExit o => o
        | LoopStarved => Starved
        end)).
Proof.
  destruct (acquired_dec c e) as [Ha | Ha].
  - right. right. split; [exact Ha |].
    rewrite line_writer_acquired by assumption. cbv zeta.
    destruct (loop c (initial_state c) (write_rets e)) as [ev le].
    exists ev, le. split; [reflexivity |].
    destruct le; rewrite <- ?app_assoc, ?app_nil_r; reflexivity.
  - unfold line_writer. cbv zeta.
    destruct (Z.eqb_spec (open_ret e) (-1)) as [Ho | Ho].
    + left. split; [exact Ho |]. rewrite <- app_assoc. reflexivity.
    + right. left.
      destruct (Z.eqb_spec (excl_lock c) 0) as [Hx | Hx];
        [exfalso; apply Ha; split; auto |].
      destruct (Z.eqb_spec (flock_ret e) (-1)) as [Hl | Hl];
        [| exfalso; apply Ha; split; auto].
      repeat (split; [assumption |]).
      cbn [negb andb]. rewrite <- app_assoc. reflexivity.
Qed.

(** X1. The file is closed and the buffer freed exactly when the loop has
    made all its passes: a run that returns 0 ends with [close] and [free]
    and calls them nowhere else; a run that ends any other way (open or lock
    failure, [exit] from the loop) calls neither. *)
Theorem cleanup_only_on_completion (c : config) (e : env) (tr : list event)
        (o : outcome) :
  line_writer c e = (tr, o) ->
  (o = Returned 0 ->
   exists tr', tr = tr' ++ [EvClose; EvFree] /\ filter is_cleanup tr' = []) /\
  (o <> Returned 0 -> filter is_cleanup tr = []).
Proof.
  intros E.
  destruct (line_writer_shape c e) as [[_ L] | [(_ & _ & _ & L) | (_ & ev & le & Hl & L)]];
    rewrite L in E;
    pose proof (f_equal fst E) as E1; pose proof (f_equal snd E) as E2;
    cbn [fst snd] in E1, E2; subst tr o.
  - split; [discriminate |]. intros _. unfold prologue. rewrite !filter_app. reflexivity.
  - split; [discriminate |]. intros _. unfold prologue. rewrite !filter_app. reflexivity.
  - assert (N : filter is_cleanup ev = []).
    { apply (filter_none _ in_loop); [apply in_loop_not_cleanup |].
      pose proof (loop_in_loop c (write_rets e) (initial_state c)) as H.
      rewrite Hl in H. exact H. }
    destruct le as [st' | o' |].
    + split; [| intros H; contradiction].
      intros _.
      exists (prologue c ++ [EvOpen (filename c)] ++
              (if negb (excl_lock c =? 0) then [EvFlock] else []) ++ ev).
      rewrite <- !app_assoc. split; [reflexivity |].
      unfold prologue. rewrite !filter_app, N.
      destruct (negb (excl_lock c =? 0)); reflexivity.
    + pose proof (loop_exit_status c _ _ _ _ Hl) as ->.
      split; [discriminate |]. intros _.
      unfold prologue. rewrite !filter_app, N.
      destruct (negb (excl_lock c =? 0)); reflexivity.
    + split; [discriminate |]. intros _.
      unfold prologue. rewrite !filter_app, N.
      destruct (negb (excl_lock c =? 0)); reflexivity.
Qed.

Lemma cleanup_only_on_completion_witness :
  (Returned 0 = Returned 0 ->
   exists tr',
     fst (line_writer (sample_config 2 5 0) (sample_env [ok_write; bad_write]))
       = tr' ++ [EvClose; EvFree] /\ filter is_cleanup tr' = []) /\
  (Returned 0 <> Returned 0 ->
   filter is_cleanup
     (fst (line_writer (sample_config 2 5 0) (sample_env [ok_write; bad_write])))
     = []).
Proof.
  apply (cleanup_only_on_completion (sample_config 2 5 0)
           (sample_env [ok_write; bad_write]) _ (Returned 0)).
  reflexivity.
Defined.

(** X2. [flock] is called only when a lock was asked for and the file was
    opened, and then once, right after [open] and before anything the loop
    does. *)
Theorem flock_only_when_requested (c : config) (e : env) :
  ((excl_lock c = 0 \/ open_ret e = -1) ->
   filter is_flock (fst (line_writer c e)) = []) /\
  (excl_lock c <> 0 -> open_ret e <> -1 ->
   exists rest,
     fst (line_writer c e) =
       prologue c ++ [EvOpen (filename c); EvFlock] ++ rest /\
     filter is_flock rest = [] /\
     (flock_ret e = -1 -> writes_of rest = [])).
Proof.
  assert (N : forall ev le,
             loop c (initial_state c) (write_rets e) = (ev, le) ->
             filter is_flock ev = []).
  { intros ev le Hl. apply (filter_none _ in_loop); [apply in_loop_not_flock |].
    pose proof (loop_in_loop c (write_rets e) (initial_state c)) as H.
    rewrite Hl in H. exact H. }
  destruct (line_writer_shape c e)
    as [[Ho L] | [(Ho & Hx & Hf & L) | ([Ho Hx] & ev & le & Hl & L)]];
    rewrite L; cbn [fst]; split.
  - intros _. unfold prologue. rewrite !filter_app. reflexivity.
  - intros _ H. contradiction.
  - intros [H | H]; contradiction.
  - intros _ _. eexists. split; [reflexivity |]. split; [reflexivity |].
    intros _. reflexivity.
  - intros [H | H]; [| contradiction].
    rewrite H. cbn [Z.eqb negb]. unfold prologue.
    rewrite !filter_app, (N ev le Hl). destruct le; reflexivity.
  - intros Hne _. destruct Hx as [Hx | Hx]; [contradiction |].
    destruct (Z.eqb_spec (excl_lock c) 0); [contradiction |]. cbn [negb].
    exists (ev ++ match le with LoopDone _ => [EvClose; EvFree] | _ => [] end).
    split; [reflexivity |]. split.
    + rewrite filter_app, (N ev le Hl). destruct le; reflexivity.
    + intros H. contradiction.
Qed.

Lemma flock_only_when_requested_witness :
  let c := {| filename := "out.txt"%string; interval := 5; excl_lock := 1;
              iterations := 1; failmax := 5; blocksize := 0 |} in
  (filter is_flock (fst (line_writer (sample_config 1 5 0) (sample_env [ok_write])))
     = []) /\
  (exists rest,
     fst (line_writer c (sample_env [ok_write])) =
       prologue c ++ [EvOpen (filename c); EvFlock] ++ rest /\
     filter is_flock rest = [] /\
     (flock_ret (sample_env [ok_write]) = -1 -> writes_of rest = [])).
Proof.
  intros c. split.
  - apply (proj1 (flock_only_when_requested (sample_config 1 5 0)
                    (sample_env [ok_write]))).
    left. reflexivity.
  - apply (proj2 (flock_only_when_requested c (sample_env [ok_write])));
      simpl; discriminate.
Defined.

Lemma open_once_then_write_aux (c : config) (e : env) :
  filter is_open (fst (line_writer c e)) = [EvOpen (filename c)] /\
  exists rest, fst (line_writer c e) = prologue c ++ EvOpen (filename c) :: rest.
Proof.
  destruct (line_writer_shape c e)
    as [[Ho L] | [(Ho & Hx & Hf & L) | (Ha & ev & le & Hl & L)]];
    rewrite L; cbn [fst snd].
  - split; [unfold prologue; rewrite !filter_app; reflexivity |].
    eexists; reflexivity.
  - split; [unfold prologue; rewrite !filter_app; reflexivity |].
    eexists; reflexivity.
  - split; [| eexists; reflexivity].
    assert (N : filter is_open ev = []).
    { apply (filter_none _ in_loop); [apply in_loop_not_open |].
      pose proof (loop_in_loop c (write_rets e) (initial_state c)) as H.
      rewrite Hl in H. exact H. }
    unfold prologue. rewrite !filter_app, N.
    destruct (negb (excl_lock c =? 0)); destruct le; reflexivity.
Qed.

(** X3. [line_writer] calls [open] at most once.  When [malloc] returned
    a buffer it calls it once, on the file name it was given, after the
    buffer is set up and before anything else; and when the file is then not
    opened, or not locked though a lock was asked for, no write, sleep or
    close follows: the run ends with one complaint on stderr and returns 1.
    When [malloc] returned a null pointer [open] is not called: the process
    is killed after the banner, with nothing written to the file or to
    stderr. *)
Theorem open_at_most_once (malloc_ok : bool) (c : config) (e : env) :
  let tr := fst (line_writer_alloc malloc_ok c e) in
  let ending := snd (line_writer_alloc malloc_ok c e) in
  (length (filter is_open tr) <= 1)%nat /\
  (malloc_ok = false ->
   ending = Killed /\ filter is_open tr = [] /\ writes_of tr = [] /\
   filter is_stderr tr = [] /\ filter is_cleanup tr = []) /\
  (malloc_ok = true ->
   filter is_open tr = [EvOpen (filename c)] /\
   (exists rest, tr = prologue c ++ EvOpen (filename c) :: rest) /\
   (~ acquired c e ->
    ending = Ended (Returned 1) /\
    writes_of tr = [] /\ io_kinds tr = [] /\ filter is_cleanup tr = [] /\
    exists m, filter is_stderr tr = [EvPrint Stderr m])).
Proof.
  destruct malloc_ok; unfold line_writer_alloc.
  - destruct (open_once_then_write_aux c e) as [Hopen Hrest].
    assert (E : forall p : list event * outcome,
               (let (ev, o) := p in (ev, Ended o)) = (fst p, Ended (snd p)))
      by (intros [ev o]; reflexivity).
    rewrite E. cbn [fst snd]. cbv zeta.
    split; [rewrite Hopen; simpl; lia |].
    split; [discriminate |]. intros _.
    split; [exact Hopen |]. split; [exact Hrest |].
    intros Ha.
    destruct (line_writer_shape c e)
      as [[Ho L] | [(Ho & Hx & Hf & L) | (Ha' & _)]]; [| | contradiction];
      rewrite L; cbn [fst snd]; unfold prologue;
      rewrite writes_of_app, io_kinds_app, !filter_app;
      repeat split; eexists; reflexivity.
  - cbn [fst snd]. cbv zeta.
    rewrite writes_of_app, !filter_app.
    split; [simpl; lia |]. split; [| discriminate].
    intros _. repeat split.
Qed.

Lemma open_at_most_once_witness :
  (snd (line_writer_alloc false (sample_config 3 5 0) (sample_env [ok_write]))
     = Killed /\
   filter is_open
     (fst (line_writer_alloc false (sample_config 3 5 0) (sample_env [ok_write])))
     = [] /\
   writes_of
     (fst (line_writer_alloc false (sample_config 3 5 0) (sample_env [ok_write])))
     = [] /\
   filter is_stderr
     (fst (line_writer_alloc false (sample_config 3 5 0) (sample_env [ok_write])))
     = [] /\
   filter is_cleanup
     (fst (line_writer_alloc false (sample_config 3 5 0) (sample_env [ok_write])))
     = []) /\
  (snd (line_writer_alloc true (sample_config 3 5 0) no_open_env)
     = Ended (Returned 1) /\
   writes_of (fst (line_writer_alloc true (sample_config 3 5 0) no_open_env)) = [] /\
   io_kinds (fst (line_writer_alloc true (sample_config 3 5 0) no_open_env)) = [] /\
   filter is_cleanup
     (fst (line_writer_alloc true (sample_config 3 5 0) no_open_env)) = [] /\
   exists m,
     filter is_stderr
       (fst (line_writer_alloc true (sample_config 3 5 0) no_open_env))
     = [EvPrint Stderr m]).
Proof.
  split.
  - apply (proj1 (proj2 (open_at_most_once false (sample_config 3 5 0)
                           (sample_env [ok_write])))).
    reflexivity.
  - apply (proj2 (proj2 (proj2 (open_at_most_once true (sample_config 3 5 0)
                                  no_open_env)) eq_refl)).
    unfold acquired. simpl. intros [H _]. apply H. reflexivity.
Defined.

(** ** How far a run goes *)

Lemma writes_of_around (c : config) (ev : list event) (le : loop_end) :
  writes_of
    (prologue c ++ [EvOpen (filename c)] ++
     (if negb (excl_lock c =? 0) then [EvFlock] else []) ++ ev ++
     match le with LoopDone _ => [EvClose; EvFree] | _ => [] end)
  = writes_of ev.
Proof.
  unfold prologue. rewrite !writes_of_app.
  destruct (negb (excl_lock c =? 0)); destruct le; simpl;
    rewrite ?app_nil_r; reflexivity.
Qed.

Lemma loop_bounded (c : config) (Hc : int_config c) (rs : list write_result) :
  forall st : loop_state,
  loop_inv c st ->
  Z.of_nat (length (writes_of (fst (loop c st rs))))
    <= Z.max 0 (iterations c - iter st) /\
  (iterations c - iter st <= Z.of_nat (length rs) ->
   snd (loop c st rs) <> LoopStarved).
Proof.
  induction rs as [| r rs IH]; intros st Hinv.
  - destruct (Z.lt_ge_cases (iter st) (iterations c)) as [Hlt | Hge].
    + rewrite loop_nil by assumption. simpl. split; lia.
    + rewrite loop_done by assumption. simpl. split; [lia | discriminate].
  - destruct (Z.lt_ge_cases (iter st) (iterations c)) as [Hlt | Hge].
    2:{ rewrite loop_done by assumption. simpl. split; [lia | discriminate]. }
    pose proof (account_silent c (failures st) r) as Hs.
    destruct (account c (failures st) r) as [[ev2 f'] [|]] eqn:A;
      destruct Hs as (Hs & _).
    + rewrite (loop_exit c Hc st r rs _ _ Hinv Hlt A). cbn [fst snd].
      rewrite writes_of_app, Hs. simpl. split; [lia | discriminate].
    + destruct (loop_pass c Hc st r rs _ _ Hinv Hlt A)
        as (ev1 & st1 & E1 & Hinv1 & Hit1 & _ & W1 & _).
      rewrite E1. cbn [fst snd]. rewrite writes_of_app, length_app, W1.
      destruct (IH st1 Hinv1) as [B S]. rewrite Hit1 in *.
      simpl length in *. split; [lia |].
      intros H. apply S. rewrite Nat2Z.inj_succ in H. lia.
Qed.

(** X4. A run of [line_writer] makes at most [iterations] writes (none when
    [iterations] is not positive), and it ends: when the outside world
    answers as many writes as [iterations] says, the run returns or exits. *)
Theorem run_is_bounded (c : config) (e : env) :
  int_config c ->
  Z.of_nat (length (writes_of (fst (line_writer c e)))) <= Z.max 0 (iterations c) /\
  (iterations c <= Z.of_nat (length (write_rets e)) ->
   snd (line_writer c e) <> Starved).
Proof.
  intros Hc.
  destruct (loop_bounded c Hc (write_rets e) (initial_state c) (initial_inv c))
    as [B S].
  simpl iter in *. rewrite Z.sub_0_r in *.
  destruct (line_writer_shape c e)
    as [[Ho L] | [(Ho & Hx & Hf & L) | (Ha & ev & le & Hl & L)]];
    rewrite L; cbn [fst snd].
  - unfold prologue. rewrite writes_of_app. simpl. split; [lia | discriminate].
  - unfold prologue. rewrite writes_of_app. simpl. split; [lia | discriminate].
  - rewrite Hl in B, S. cbn [fst snd] in B, S. split.
    + rewrite writes_of_around. exact B.
    + intros H. specialize (S H). destruct le; try discriminate.
      * pose proof (loop_exit_status c _ _ _ _ Hl) as ->. discriminate.
      * contradiction.
Qed.

Lemma run_is_bounded_witness :
  Z.of_nat (length (writes_of (fst (line_writer (sample_config 2 1 0)
                                      (sample_env [ok_write; bad_write; ok_write])))))
    <= Z.max 0 2 /\
  (2 <= Z.of_nat (length [ok_write; bad_write; ok_write]) ->
   snd (line_writer (sample_config 2 1 0)
          (sample_env [ok_write; bad_write; ok_write])) <> Starved).
Proof.
  apply (run_is_bounded (sample_config 2 1 0)
           (sample_env [ok_write; bad_write; ok_write])).
  apply sample_int_config; apply small_is_int; lia.
Defined.

(** X5. What is handed to the [i]-th [write] depends on the configuration
    and on [i] only: two runs with the same configuration, whatever the
    outside world answers in each, hand the same bytes and the same count to
    their [i]-th write. *)
Theorem writes_depend_on_config_only (c : config) (e1 e2 : env) (i : nat)
        (w1 w2 : list byte * Z) :
  int_config c ->
  nth_error (writes_of (fst (line_writer c e1))) i = Some w1 ->
  nth_error (writes_of (fst (line_writer c e2))) i = Some w2 ->
  w1 = w2 /\ w1 = (payload c (Z.of_nat i), requested c (Z.of_nat i)).
Proof.
  intros Hc H1 H2.
  assert (G : forall e w,
             nth_error (writes_of (fst (line_writer c e))) i = Some w ->
             w = (payload c (Z.of_nat i), requested c (Z.of_nat i))).
  { intros e [p n] H.
    assert (L : nth_error (writes_of (fst (loop c (initial_state c) (write_rets e)))) i
                = Some (p, n)).
    { destruct (line_writer_writes c e) as [W | W]; rewrite W in H;
        [destruct i; discriminate | exact H]. }
    destruct (loop_writes c Hc _ _ _ _ _ (initial_inv c) L) as (-> & -> & _).
    reflexivity. }
  rewrite (G e1 w1 H1), (G e2 w2 H2). split; reflexivity.
Qed.

Lemma writes_depend_on_config_only_witness :
  (["1"%byte; LF], 2) = (["1"%byte; LF], 2) /\
  (["1"%byte; LF], 2) =
  (payload (sample_config 3 5 0) (Z.of_nat 1),
   requested (sample_config 3 5 0) (Z.of_nat 1)).
Proof.
  apply (writes_depend_on_config_only (sample_config 3 5 0)
           (sample_env [ok_write; ok_write; ok_write])
           (sample_env [bad_write; {| ws := 1; w_errno := 0 |}]) 1).
  - apply sample_int_config; apply small_is_int; lia.
  - reflexivity.
  - reflexivity.
Defined.

(** ** The buffers *)

Lemma reachable_inv (c : config) (st : loop_state) :
  int_config c -> reachable c st -> loop_inv c st.
Proof.
  intros Hc. induction 1 as [| st st' r ev _ IH Hlt B].
  - apply initial_inv.
  - exact (proj1 (loop_body_inv c Hc st IH Hlt r ev st' B)).
Qed.

(** X6. In every pass of the loop the text with its NUL takes at most 12
    bytes, so it fits [str_buf] and the write buffer, whose length stays
    what [malloc] was asked for; and with a block size that is not negative
    the count handed to [write] is within that length: the [write] reads
    nothing beyond the buffer. *)
Theorem buffers_never_overrun (c : config) (st : loop_state) :
  int_config c -> 0 <= blocksize c -> reachable c st ->
  (length (sprintf_d_nl (iter st)) <= 12)%nat /\
  Z.of_nat (length (sprintf_d_nl (iter st))) <= BS_DEF <= write_buf_size c /\
  Z.of_nat (length (write_buf st)) = write_buf_size c /\
  0 <= write_actual c (Z.of_nat (strlen (sprintf_d_nl (iter st))))
    <= write_buf_size c.
Proof.
  intros Hc Hb Hr.
  pose proof (reachable_inv c st Hc Hr) as Hinv.
  destruct Hinv as (Hi & junk & k & Hbuf & Hsize & Hjunk).
  destruct Hc as (_ & _ & _ & Hbi).
  pose proof (write_buf_size_ge c Hbi) as Hge.
  pose proof (write_buf_size_max c Hbi) as Hmax.
  pose proof (fmt_d_length (iter st) Hi) as Hlen.
  rewrite sprintf_d_nl_length, strlen_sprintf by assumption.
  unfold BS_DEF in *.
  split; [lia |]. split; [lia |]. split.
  - rewrite Hbuf, length_app, repeat_length. lia.
  - unfold write_actual.
    destruct (Z.eqb_spec (blocksize c) 0); [lia |].
    rewrite to_size_t_id by (assumption || lia). lia.
Qed.

Lemma buffers_never_overrun_witness :
  let c := sample_config 10 2 4096 in
  let st := initial_state c in
  (length (sprintf_d_nl (iter st)) <= 12)%nat /\
  Z.of_nat (length (sprintf_d_nl (iter st))) <= BS_DEF <= write_buf_size c /\
  Z.of_nat (length (write_buf st)) = write_buf_size c /\
  0 <= write_actual c (Z.of_nat (strlen (sprintf_d_nl (iter st))))
    <= write_buf_size c.
Proof.
  intros c st. apply (buffers_never_overrun c st).
  - apply sample_int_config; apply small_is_int; lia.
  - simpl. lia.
  - apply reach_init.
Defined.

(** ** When the loop calls [exit] *)

(** A loop that ends in [exit] has just been answered as many failed writes
    in a row as were still missing to the limit. *)
Lemma loop_exit_streak (c : config) (Hc : int_config c) (rs : list write_result) :
  forall (st : loop_state) (tr : list event) (o : outcome),
  loop_inv c st -> 0 <= failures st ->
  (0 < failmax c -> failures st < failmax c) ->
  loop c st rs = (tr, LoopExit o) ->
  0 < failmax c /\
  exists pre mid post,
    rs = pre ++ mid ++ post /\ Forall failed mid /\
    (Z.of_nat (length mid) = failmax c \/
     (pre = [] /\ failures st + Z.of_nat (length mid) = failmax c)) /\
    length (writes_of tr) = (length pre + length mid)%nat.
Proof.
  pose proof Hc as (_ & _ & Hfi & _).
  induction rs as [| r rs IH]; intros st tr o Hinv H0 Hlim E.
  - destruct (Z.lt_ge_cases (iter st) (iterations c));
      [rewrite loop_nil in E | rewrite loop_done in E]; try assumption;
      discriminate.
  - destruct (Z.lt_ge_cases (iter st) (iterations c)) as [Hlt | Hge];
      [| rewrite loop_done in E by assumption; discriminate].
    destruct (Z.eq_dec (ws r) (-1)) as [Hw | Hw].
    + destruct (Z.le_gt_cases (failmax c) 0) as [Hnp | Hpos].
      * (* no limit: the failure is not counted *)
        destruct (loop_pass c Hc st r rs _ _ Hinv Hlt
                    (account_unlimited c (failures st) r Hw Hnp))
          as (ev1 & st1 & E1 & Hinv1 & _ & Hf1 & _).
        rewrite E1 in E. destruct (loop c st1 rs) as [tr1 le1] eqn:E2.
        cbn [fst snd] in E. injection E as _ ->.
        destruct (IH st1 tr1 o Hinv1 ltac:(lia) ltac:(lia) E2) as [Hpos _]. lia.
      * specialize (Hlim ltac:(lia)).
        destruct (Z.eq_dec (failures st + 1) (failmax c)) as [Heq | Hne].
        -- (* the limit is reached at this write *)
           rewrite (loop_exit c Hc st r rs _ _ Hinv Hlt
                      (account_fatal c (failures st) r Hw Hfi H0 Heq)) in E.
           injection E as <- _. split; [lia |].
           exists [], [r], rs. split; [reflexivity |].
           split; [repeat constructor; exact Hw |].
           split; [right; split; [reflexivity | simpl length; lia] |].
           reflexivity.
        -- destruct (loop_pass c Hc st r rs _ _ Hinv Hlt
                       (account_counted c (failures st) r Hw Hfi H0 ltac:(lia)))
             as (ev1 & st1 & E1 & Hinv1 & _ & Hf1 & W1 & _).
           rewrite E1 in E. destruct (loop c st1 rs) as [tr1 le1] eqn:E2.
           cbn [fst snd] in E.
           pose proof (f_equal fst E) as Et. pose proof (f_equal snd E) as Eo.
           cbn [fst snd] in Et, Eo. subst tr le1.
           destruct (IH st1 tr1 o Hinv1 ltac:(lia) ltac:(lia) E2)
             as (_ & pre & mid & post & -> & Hmid & Hcase & W).
           split; [lia |].
           rewrite writes_of_app, length_app, W1, W.
           destruct Hcase as [Hfull | [-> Hpart]].
           ++ exists (r :: pre), mid, post. split; [reflexivity |].
              split; [exact Hmid |]. split; [left; exact Hfull |]. reflexivity.
           ++ exists [], (r :: mid), post. split; [reflexivity |].
              split; [constructor; assumption |].
              split; [right; split; [reflexivity |] | reflexivity].
              simpl length. rewrite Nat2Z.inj_succ. lia.
    + destruct (loop_pass c Hc st r rs _ _ Hinv Hlt (account_ok c (failures st) r Hw))
        as (ev1 & st1 & E1 & Hinv1 & _ & Hf1 & W1 & _).
      rewrite E1 in E. destruct (loop c st1 rs) as [tr1 le1] eqn:E2.
      cbn [fst snd] in E.
      pose proof (f_equal fst E) as Et. pose proof (f_equal snd E) as Eo.
      cbn [fst snd] in Et, Eo. subst tr le1.
      destruct (IH st1 tr1 o Hinv1 ltac:(lia) ltac:(lia) E2)
        as (Hpos & pre & mid & post & -> & Hmid & Hcase & W).
      split; [exact Hpos |].
      exists (r :: pre), mid, post. split; [reflexivity |].
      split; [exact Hmid |].
      rewrite writes_of_app, length_app, W1, W. split; [| reflexivity].
      left. destruct Hcase as [Hfull | [_ Hpart]]; lia.
Qed.

(** X7. [line_writer] calls [exit] for one reason only: a limit
    [failmax > 0] is set, and the last [failmax] writes it made all failed.
    The status is then the failure status. *)
Theorem exit_only_after_streak (c : config) (e : env) (tr : list event)
        (status : Z) :
  int_config c -> line_writer c e = (tr, Exited status) ->
  status = EXIT_FAILURE /\ 0 < failmax c /\
  exists pre mid post,
    write_rets e = pre ++ mid ++ post /\ Forall failed mid /\
    Z.of_nat (length mid) = failmax c /\
    length (writes_of tr) = (length pre + length mid)%nat.
Proof.
  intros Hc E.
  destruct (line_writer_shape c e)
    as [[Ho L] | [(Ho & Hx & Hf & L) | (Ha & ev & le & Hl & L)]];
    rewrite L in E; try discriminate.
  pose proof (f_equal fst E) as Et. pose proof (f_equal snd E) as Eo.
  cbn [fst snd] in Et, Eo. subst tr.
  rewrite writes_of_around.
  destruct le as [st' | o' |]; try discriminate. subst o'.
  pose proof (loop_exit_status c _ _ _ _ Hl) as Hs. injection Hs as ->.
  split; [reflexivity |].
  destruct (loop_exit_streak c Hc _ _ _ _ (initial_inv c) (Z.le_refl 0)
              ltac:(simpl; lia) Hl)
    as (Hpos & pre & mid & post & Hrs & Hmid & Hcase & W).
  split; [exact Hpos |].
  exists pre, mid, post. split; [exact Hrs |]. split; [exact Hmid |].
  split; [simpl in Hcase; destruct Hcase as [H | [_ H]]; lia |].
  exact W.
Qed.

Lemma exit_only_after_streak_witness :
  EXIT_FAILURE = EXIT_FAILURE /\ 0 < failmax (sample_config 10 2 0) /\
  exists pre mid post,
    [ok_write; bad_write; bad_write; ok_write] = pre ++ mid ++ post /\
    Forall failed mid /\
    Z.of_nat (length mid) = failmax (sample_config 10 2 0) /\
    length (writes_of (fst (line_writer (sample_config 10 2 0)
                 (sample_env [ok_write; bad_write; bad_write; ok_write]))))
    = (length pre + length mid)%nat.
Proof.
  apply (exit_only_after_streak (sample_config 10 2 0)
           (sample_env [ok_write; bad_write; bad_write; ok_write])
           _ EXIT_FAILURE).
  - apply sample_int_config; apply small_is_int; lia.
  - reflexivity.
Defined.

(** X8. Failed writes that never come [failmax] in a row do not end the
    run: when every streak of failures among the answers is shorter than
    the limit (the one the answers end with too), the run makes all its
    iterations and returns 0. *)
Theorem short_streaks_complete (c : config) (e : env)
        (pre fs post : list write_result) :
  int_config c -> acquired c e -> 0 < failmax c ->
  write_rets e = pre ++ fs ++ post ->
  recovers (failmax c) pre -> Forall failed fs ->
  Z.of_nat (length fs) < failmax c ->
  Z.of_nat (length pre + length fs) = iterations c ->
  exists tr,
    line_writer c e = (tr, Returned 0) /\
    Z.of_nat (length (writes_of tr)) = iterations c.
Proof.
  intros Hc Ha Hpos Hrs Hpre Hfs Hlen Hit.
  rewrite Nat2Z.inj_add in Hit.
  destruct (loop_recovers c Hc pre (fs ++ post) Hpre (initial_state c)
              (initial_inv c) eq_refl ltac:(simpl; lia))
    as (ev1 & st1 & E1 & Hinv1 & Hit1 & Hf1 & W1).
  simpl in Hit1.
  destruct (loop_streak c Hc fs post Hfs st1 Hinv1 ltac:(lia) ltac:(lia)
              ltac:(lia))
    as (ev2 & st2 & E2 & Hinv2 & Hit2 & Hf2 & W2).
  rewrite line_writer_acquired by assumption. cbv zeta.
  rewrite Hrs, E1, E2. cbn [fst snd].
  rewrite (loop_done c st2 post) by lia. cbn [fst snd].
  eexists. split; [reflexivity |].
  rewrite <- (app_assoc (prologue c)).
  rewrite (writes_of_around c ((ev1 ++ ev2 ++ []) ) (LoopDone st2)).
  rewrite !writes_of_app, !length_app, W1, W2. simpl. lia.
Qed.

Lemma short_streaks_complete_witness :
  exists tr,
    line_writer (sample_config 4 2 0)
      (sample_env [bad_write; ok_write; ok_write; bad_write]) = (tr, Returned 0) /\
    Z.of_nat (length (writes_of tr)) = 4.
Proof.
  apply (short_streaks_complete (sample_config 4 2 0)
           (sample_env [bad_write; ok_write; ok_write; bad_write])
           [bad_write; ok_write; ok_write] [bad_write] []).
  - apply sample_int_config; apply small_is_int; lia.
  - apply sample_acquired.
  - simpl. lia.
  - reflexivity.
  - apply (recovers_streak 2 [bad_write] ok_write [ok_write]).
    + repeat constructor.
    + simpl. lia.
    + unfold failed. simpl. lia.
    + apply (recovers_streak 2 [] ok_write []).
      * constructor.
      * simpl. lia.
      * unfold failed. simpl. lia.
      * constructor.
  - repeat constructor.
  - simpl. lia.
  - reflexivity.
Defined.

(** ** The options and the exit status of [main] *)

(** Where the [switch] ends the process: [-h] with the usage text and the
    success status, anything else with a complaint on stderr and the failure
    status. *)
Lemma handle_opt_stop (progname : string) (o : options) (g : getopt_ret)
      (ev : list event) (status : Z) :
  handle_opt progname o g = inr (ev, status) ->
  (status = EXIT_SUCCESS /\ ev = [EvPrint Stdout (MsgUsage progname)]) \/
  (status = EXIT_FAILURE /\ filter is_open ev = [] /\
   exists tr' m, ev = tr' ++ [EvPrint Stderr m]).
Proof.
  unfold handle_opt, fatal. destruct g as [c optarg | c | m].
  - destruct (Ascii.eqb c "s").
    { destruct ((atol optarg =? 0) || (atol optarg >? INTERVAL_MAX)
                || (atol optarg <? INTERVAL_MIN)); [| discriminate].
      intros E. injection E as <- <-. right. split; [reflexivity |]. split; [reflexivity |].
      exists [], (MsgInvalidSleep optarg). reflexivity. }
    destruct (Ascii.eqb c "c").
    { destruct ((atol optarg <=? 0) || (atol optarg >? ITERATION_MAX));
        [| discriminate].
      intros E. injection E as <- <-. right. split; [reflexivity |]. split; [reflexivity |].
      exists [], (MsgInvalidIterations optarg). reflexivity. }
    destruct (Ascii.eqb c "f").
    { destruct ((atol optarg <? 0) || (atol optarg >? FAILURE_MAX));
        [| discriminate].
      intros E. injection E as <- <-. right. split; [reflexivity |]. split; [reflexivity |].
      exists [], (MsgInvalidFailures optarg). reflexivity. }
    destruct (Ascii.eqb c "b").
    { destruct ((to_int (atol optarg) <? 0) || (to_int (atol optarg) >? BS_MAX));
        [| discriminate].
      intros E. injection E as <- <-. right. split; [reflexivity |]. split; [reflexivity |].
      exists [], (MsgInvalidBlockSize optarg). reflexivity. }
    intros E. injection E as <- <-. right. split; [reflexivity |]. split; [reflexivity |].
    exists [], MsgGibberish. reflexivity.
  - destruct (Ascii.eqb c "h").
    { intros E. injection E as <- <-. left. split; reflexivity. }
    destruct (Ascii.eqb c "l"); [discriminate |].
    intros E. injection E as <- <-. right. split; [reflexivity |]. split; [reflexivity |].
    exists [], MsgGibberish. reflexivity.
  - intros E. injection E as <- <-. right. split; [reflexivity |]. split; [reflexivity |].
    exists [EvPrint Stderr m], MsgGibberish. reflexivity.
Qed.

Lemma options_loop_stop (progname : string) (gs : list getopt_ret) :
  forall (o : options) (ev : list event) (status : Z),
  options_loop progname o gs = inr (ev, status) ->
  (status = EXIT_SUCCESS /\ ev = [EvPrint Stdout (MsgUsage progname)]) \/
  (status = EXIT_FAILURE /\ filter is_open ev = [] /\
   exists tr' m, ev = tr' ++ [EvPrint Stderr m]).
Proof.
  induction gs as [| g gs IH]; intros o ev status E; simpl in E.
  - discriminate.
  - destruct (handle_opt progname o g) as [o1 | stop] eqn:H.
    + exact (IH o1 ev status E).
    + injection E as ->. exact (handle_opt_stop _ _ _ _ _ H).
Qed.



Lemma fst_main_line_writer (p : list event * outcome) :
  fst (match p with
       | (ev, Returned _) => (ev, Returned 0)
       | (ev, o') => (ev, o')
       end) = fst p.
Proof. destruct p as [ev [v | s |]]; reflexivity. Qed.





(** X10. [main] opens a file only when every option was accepted and
    exactly one argument is left; the file opened is that argument, it is
    opened once, and the values [line_writer] runs with are within the
    documented bounds. *)
Theorem main_opens_only_valid (argv : list string) (e : env) (file : string) :
  In (EvOpen file) (fst (main argv e)) ->
  exists rets o,
    getopt_all (posixly_correct e) optstring (tl argv) = (rets, [file]) /\
    options_loop (hd EmptyString argv) default_options rets = inl o /\
    options_in_bounds o /\
    filter is_open (fst (main argv e)) = [EvOpen file].
Proof.
  intros Hin.
  assert (Hf : In (EvOpen file) (filter is_open (fst (main argv e))))
    by (apply filter_In; split; [exact Hin | reflexivity]).
  destruct (getopt_all (posixly_correct e) optstring (tl argv))
    as [rets positional] eqn:G.
  destruct (options_loop (hd EmptyString argv) default_options rets)
    as [o | [ev st]] eqn:O.
  - rewrite (main_after_options argv e rets positional o G O) in Hf |- *.
    destruct (Z.eqb_spec (Z.of_nat (length positional)) 1) as [H1 | H1];
      cbn [negb] in Hf |- *; [| destruct Hf].
    destruct positional as [| f [| f' rest]]; simpl in H1; try lia.
    cbn [hd] in Hf |- *. rewrite fst_main_line_writer in Hf |- *.
    destruct (open_once_then_write_aux (config_of o f) e) as [Hopen _].
    rewrite Hopen in Hf |- *. destruct Hf as [Hf | []]. injection Hf as ->.
    exists rets, o. split; [reflexivity |]. split; [exact O |].
    split; [| reflexivity].
    apply (options_loop_bounds (hd EmptyString argv) rets default_options o);
      [| exact O].
    unfold options_in_bounds, default_options, INTERVAL_MIN, INTERVAL_MAX,
      ITERATION_MAX, FAILURE_MAX, BS_MAX, INTERVAL_DEFAULT, FAILURE_DEFAULT.
    simpl. lia.
  - unfold main in Hf. rewrite G, O in Hf. cbn [fst] in Hf.
    destruct (options_loop_stop _ _ _ _ _ O) as [[_ ->] | (_ & Hno & _)].
    + destruct Hf.
    + rewrite Hno in Hf. destruct Hf.
Qed.

Lemma main_opens_only_valid_witness :
  exists rets o,
    getopt_all false optstring
      (tl ["timed-writer"; "-c"; "2"; "out.txt"; "-l"]%string)
      = (rets, ["out.txt"%string]) /\
    options_loop "timed-writer" default_options rets = inl o /\
    options_in_bounds o /\
    filter is_open
      (fst (main ["timed-writer"; "-c"; "2"; "out.txt"; "-l"]%string
              (sample_env [ok_write; ok_write]))) = [EvOpen "out.txt"].
Proof.
  apply (main_opens_only_valid
           ["timed-writer"; "-c"; "2"; "out.txt"; "-l"]%string
           (sample_env [ok_write; ok_write]) "out.txt").
  simpl. tauto.
Defined.

(** X11. An option character that is not one of [s c b f l h], or one of
    [s c b f] with no argument after it, is fatal: when no option before it
    made the process exit, getopt's own complaint and then "Command line
    gibberish" go to stderr and the process exits with the failure status;
    no file is opened. *)
Theorem unknown_option_fatal (argv : list string) (e : env)
        (pre post : list getopt_ret) (positional : list string) (o : options)
        (complaint : message) :
  getopt_all (posixly_correct e) optstring (tl argv)
    = (pre ++ OptErr complaint :: post, positional) ->
  options_loop (hd EmptyString argv) default_options pre = inl o ->
  main argv e =
    ([EvPrint Stderr complaint; EvPrint Stderr MsgGibberish],
     Exited EXIT_FAILURE).
Proof.
  intros G O. unfold main. rewrite G.
  rewrite (options_loop_app _ pre post _ o (OptErr complaint) O).
  reflexivity.
Qed.

Lemma unknown_option_fatal_witness :
  main ["timed-writer"; "-l"; "-x"; "out.txt"]%string (sample_env [])
    = ([EvPrint Stderr (MsgGetoptInvalid "x"); EvPrint Stderr MsgGibberish],
       Exited EXIT_FAILURE) /\
  main ["timed-writer"; "out.txt"; "-s"]%string (sample_env [])
    = ([EvPrint Stderr (MsgGetoptNoArgument "s"); EvPrint Stderr MsgGibberish],
       Exited EXIT_FAILURE).
Proof.
  split.
  - apply (unknown_option_fatal ["timed-writer"; "-l"; "-x"; "out.txt"]%string
             (sample_env []) [OptFlag "l"] [] ["out.txt"]%string
             {| o_interval := 5; o_iterations := 666; o_failmax := 5;
                o_excl_lock := 1; o_blocksize := 0 |}); reflexivity.
  - apply (unknown_option_fatal ["timed-writer"; "out.txt"; "-s"]%string
             (sample_env []) [] [] ["out.txt"]%string default_options);
      reflexivity.
Defined.

(** ** Which values a run uses *)

(** What one accepted option stores. *)
Lemma handle_opt_stores (progname : string) (o o' : options) (g : getopt_ret) :
  handle_opt progname o g = inl o' ->
  o_interval o' = setting atol (o_interval o) (last_optarg "s" [g]) /\
  o_iterations o' = setting atol (o_iterations o) (last_optarg "c" [g]) /\
  o_failmax o' = setting atol (o_failmax o) (last_optarg "f" [g]) /\
  o_blocksize o' =
    setting (fun v => to_int (atol v)) (o_blocksize o) (last_optarg "b" [g]) /\
  o_excl_lock o' = (if has_flag "l" [g] then 1 else o_excl_lock o).
Proof.
  unfold handle_opt, fatal. destruct g as [c optarg | c | m]; [| | discriminate].
  - cbn [last_optarg has_flag].
    destruct (Ascii.eqb c "s") eqn:Es.
    { apply Ascii.eqb_eq in Es. subst c. cbn [Ascii.eqb Bool.eqb setting].
      destruct (_ || _); [discriminate |].
      intros E. injection E as <-. repeat split. }
    destruct (Ascii.eqb c "c") eqn:Ec.
    { apply Ascii.eqb_eq in Ec. subst c. cbn [Ascii.eqb Bool.eqb setting].
      destruct (_ || _); [discriminate |].
      intros E. injection E as <-. repeat split. }
    destruct (Ascii.eqb c "f") eqn:Ef.
    { apply Ascii.eqb_eq in Ef. subst c. cbn [Ascii.eqb Bool.eqb setting].
      destruct (_ || _); [discriminate |].
      intros E. injection E as <-. repeat split. }
    destruct (Ascii.eqb c "b") eqn:Eb; [| discriminate].
    cbn [setting].
    destruct (_ || _); [discriminate |].
    intros E. injection E as <-. repeat split.
  - cbn [last_optarg has_flag setting].
    destruct (Ascii.eqb c "h"); [discriminate |].
    destruct (Ascii.eqb c "l"); [| discriminate].
    intros E. injection E as <-. repeat split.
Qed.

Lemma last_optarg_cons (c : ascii) (g : getopt_ret) (gs : list getopt_ret)
      (conv : string -> Z) (before : Z) :
  setting conv (setting conv before (last_optarg c [g])) (last_optarg c gs)
  = setting conv before (last_optarg c (g :: gs)).
Proof.
  cbn [last_optarg]. destruct (last_optarg c gs); reflexivity.
Qed.

Lemma has_flag_cons (c : ascii) (g : getopt_ret) (gs : list getopt_ret) (before : Z) :
  (if has_flag c gs then 1 else if has_flag c [g] then 1 else before)
  = (if has_flag c (g :: gs) then 1 else before).
Proof.
  destruct g as [c' v | c' | m]; cbn [has_flag]; try reflexivity.
  rewrite orb_false_r.
  destruct (Ascii.eqb c' c); destruct (has_flag c gs); reflexivity.
Qed.

(** What the options loop leaves in the variables of [main]: for each
    numeric option the value of its last occurrence, for [-l] 1 when it
    occurs, and what was there before for the options that do not occur. *)
Lemma options_loop_stores (progname : string) (gs : list getopt_ret) :
  forall o o' : options,
  options_loop progname o gs = inl o' ->
  o_interval o' = setting atol (o_interval o) (last_optarg "s" gs) /\
  o_iterations o' = setting atol (o_iterations o) (last_optarg "c" gs) /\
  o_failmax o' = setting atol (o_failmax o) (last_optarg "f" gs) /\
  o_blocksize o' =
    setting (fun v => to_int (atol v)) (o_blocksize o) (last_optarg "b" gs) /\
  o_excl_lock o' = (if has_flag "l" gs then 1 else o_excl_lock o).
Proof.
  induction gs as [| g gs IH]; intros o o' E; simpl in E.
  - injection E as <-. repeat split.
  - destruct (handle_opt progname o g) as [o1 | stop] eqn:H; [| discriminate].
    destruct (IH o1 o' E) as (I1 & I2 & I3 & I4 & I5).
    destruct (handle_opt_stores _ _ _ _ H) as (H1 & H2 & H3 & H4 & H5).
    rewrite I1, I2, I3, I4, I5, H1, H2, H3, H4, H5.
    rewrite !last_optarg_cons, has_flag_cons. repeat split.
Qed.

(** X12. When every option is accepted and one file name is left, the run
    is the run of [line_writer] on that file with, for each of [-s], [-c],
    [-f] and [-b], the value of its last occurrence on the command line
    (an option given twice is not an error: the later value replaces the
    earlier), or the default (5, 666, 5, 0) when it does not occur, and with
    the lock when [-l] occurs. *)
Theorem last_option_wins (argv : list string) (e : env)
        (rets : list getopt_ret) (file : string) (o : options) :
  getopt_all (posixly_correct e) optstring (tl argv) = (rets, [file]) ->
  options_loop (hd EmptyString argv) default_options rets = inl o ->
  fst (main argv e) =
  fst (line_writer
         {| filename := file;
            interval := setting atol INTERVAL_DEFAULT (last_optarg "s" rets);
            excl_lock := if has_flag "l" rets then 1 else 0;
            iterations := setting atol ITERATION_MAX (last_optarg "c" rets);
            failmax := setting atol FAILURE_DEFAULT (last_optarg "f" rets);
            blocksize := setting (fun v => to_int (atol v)) 0
                           (last_optarg "b" rets) |} e).
Proof.
  intros G O.
  rewrite (main_after_options argv e rets [file] o G O).
  cbn [length Z.of_nat Pos.of_succ_nat Z.eqb Pos.eqb negb hd].
  rewrite fst_main_line_writer. f_equal. f_equal.
  destruct (options_loop_stores _ _ _ _ O) as (S1 & S2 & S3 & S4 & S5).
  assert (B : options_in_bounds o).
  { apply (options_loop_bounds (hd EmptyString argv) rets default_options o);
      [| exact O].
    unfold options_in_bounds, default_options, INTERVAL_MIN, INTERVAL_MAX,
      ITERATION_MAX, FAILURE_MAX, BS_MAX, INTERVAL_DEFAULT, FAILURE_DEFAULT.
    simpl. lia. }
  unfold options_in_bounds, INTERVAL_MIN, INTERVAL_MAX, ITERATION_MAX,
    FAILURE_MAX, BS_MAX in B.
  unfold config_of.
  rewrite !to_int_id by (unfold is_int, INT_MIN, INT_MAX; lia).
  rewrite S1, S2, S3, S4, S5. reflexivity.
Qed.

Lemma last_option_wins_witness :
  fst (main ["timed-writer"; "-s"; "9"; "-l"; "-s"; "2"; "out.txt"; "-c"; "2"]%string
         (sample_env [ok_write; ok_write])) =
  fst (line_writer
         {| filename := "out.txt"%string; interval := atol "2";
            excl_lock := 1; iterations := atol "2";
            failmax := FAILURE_DEFAULT; blocksize := 0 |}
         (sample_env [ok_write; ok_write])).
Proof.
  apply (last_option_wins
           ["timed-writer"; "-s"; "9"; "-l"; "-s"; "2"; "out.txt"; "-c"; "2"]%string
           (sample_env [ok_write; ok_write])
           [OptArg "s" "9"; OptFlag "l"; OptArg "s" "2"; OptArg "c" "2"]
           "out.txt"
           {| o_interval := 2; o_iterations := 2; o_failmax := 5;
              o_excl_lock := 1; o_blocksize := 0 |}).
  - reflexivity.
  - reflexivity.
Defined.

(** ** What is reported about failed writes *)

Lemma write_errors_app (a b : list event) :
  write_errors (a ++ b) = write_errors a ++ write_errors b.
Proof.
  induction a as [| x a IH]; [reflexivity |].
  destruct x as [[|] []| | | | | | | |]; simpl; rewrite IH; reflexivity.
Qed.

(** The complaints of one pass: one when the write failed, none otherwise. *)
Lemma loop_body_write_errors (c : config) (st : loop_state) (r : write_result) :
  write_errors (fst (loop_body c st r)) = failed_errnos [r].
Proof.
  unfold loop_body, account. cbn [failed_errnos].
  destruct (ws r =? -1).
  - destruct (failmax c >? 0).
    + destruct (to_int (failures st + 1) =? failmax c); cbn [fst].
      * reflexivity.
      * rewrite !write_errors_app.
        destruct (to_int (iter st + 1) <? iterations c); reflexivity.
    + cbn [fst]. rewrite !write_errors_app.
      destruct (to_int (iter st + 1) <? iterations c); reflexivity.
  - cbn [fst negb andb]. rewrite !write_errors_app.
    destruct (negb (ws r =? _));
      destruct (to_int (iter st + 1) <? iterations c); reflexivity.
Qed.

Lemma loop_write_errors (c : config) (rs : list write_result) :
  forall st : loop_state,
  write_errors (fst (loop c st rs)) =
  failed_errnos (firstn (length (writes_of (fst (loop c st rs)))) rs).
Proof.
  induction rs as [| r rs IH]; intros st; simpl;
    destruct (iter st <? iterations c); try reflexivity.
  pose proof (loop_body_write_errors c st r) as E.
  assert (W : length (writes_of (fst (loop_body c st r))) = 1%nat).
  { unfold loop_body.
    pose proof (account_silent c (failures st) r) as Hs.
    destruct (account c (failures st) r) as [[ev2 f'] [|]];
      destruct Hs as (Hs & _); cbn [fst]; rewrite !writes_of_app, Hs.
    - reflexivity.
    - destruct (negb (ws r =? -1) && negb (ws r =? _));
        destruct (to_int (iter st + 1) <? iterations c); reflexivity. }
  destruct (loop_body c st r) as [ev [st' | o]]; cbn [fst] in *.
  - specialize (IH st'). destruct (loop c st' rs) as [ev' le].
    cbn [fst] in *.
    rewrite write_errors_app, writes_of_app, length_app, W, E, IH.
    cbn [failed_errnos Nat.add firstn].
    destruct (ws r =? -1); reflexivity.
  - rewrite W, E. cbn [firstn failed_errnos]. reflexivity.
Qed.

(** X13. Every failed write is reported, whatever the limit is (with
    [failmax = 0] too): the "write() failed" complaints of a run carry, in
    order, the [errno] of each failed one among the writes the run made, and
    there are no others. *)
Theorem write_failures_all_reported (c : config) (e : env) :
  write_errors (fst (line_writer c e)) =
  failed_errnos
    (firstn (length (writes_of (fst (line_writer c e)))) (write_rets e)).
Proof.
  destruct (line_writer_shape c e)
    as [[Ho L] | [(Ho & Hx & Hf & L) | (Ha & ev & le & Hl & L)]];
    rewrite L; cbn [fst].
  - unfold prologue. rewrite writes_of_app, write_errors_app. reflexivity.
  - unfold prologue. rewrite writes_of_app, write_errors_app. reflexivity.
  - rewrite writes_of_around.
    pose proof (loop_write_errors c (write_rets e) (initial_state c)) as H.
    rewrite Hl in H. cbn [fst] in H. rewrite <- H.
    unfold prologue. rewrite !write_errors_app.
    destruct (negb (excl_lock c =? 0)); destruct le; simpl;
      rewrite ?app_nil_r; reflexivity.
Qed.
